(** * Smart ambulance route finder: the mission / traffic state machine of [App]

    A shallow embedding of the React component [App] (the dispatcher's
    dashboard) and of [types.ts].  A JavaScript [number] is an IEEE-754
    binary64 value, modelled by Rocq's primitive floats; a React state
    variable is a field of the record [State]; an event handler is a function
    of the render it closes over that queues state updates; pending
    asynchronous work ([setTimeout], [await], geolocation callbacks) is kept
    in the [World] next to the state, and so are the renders whose handlers
    the map component was given: that component calls them when it likes,
    those of an old render included. *)

From Stdlib Require Import ZArith List String Ascii Bool Lia Floats.
Import ListNotations.

Set Warnings "-inexact-float".

Local Open Scope string_scope.
Local Open Scope Z_scope.

(** ** The JavaScript built-ins the component calls *)

Module JS.

(** [number]: IEEE-754 binary64. *)
Definition number : Type := float.

Definition NaN : number := nan.

(** [isNaN x] for an [x] that is already a number. *)
Definition isNaN (x : number) : bool := is_nan x.

(** The number nearest to an integer (exact up to 2^53). *)
Definition number_of_Z (z : Z) : number :=
  SF2Prim (binary_normalize prec emax z 0 false).

(** [Math.floor]: the greatest integer not above [x]; NaN, the infinities
    and the zeros are returned as they are. *)
Definition Math_floor (x : number) : number :=
  match Prim2SF x with
  | S754_finite s m e =>
      if 0 <=? e then x
      else
        let q := (if s then Z.neg m else Z.pos m) / 2 ^ (- e) in
        if q =? 0 then 0%float else number_of_Z q
  | _ => x
  end.

(** [Math.round]: the nearest integer, a tie going up; a result that is
    zero keeps the sign of [x]. *)
Definition Math_round (x : number) : number :=
  match Prim2SF x with
  | S754_finite s m e =>
      if 0 <=? e then x
      else
        let q := (2 * (if s then Z.neg m else Z.pos m) + 2 ^ (- e))
                 / 2 ^ (- e + 1) in
        if q =? 0 then (if s then (-0)%float else 0%float)
        else number_of_Z q
  | _ => x
  end.

(** *** [parseFloat]

    A string is a sequence of code units below 256 (Latin-1); the white
    space and line terminators of that range are the ones [parseFloat]
    skips. *)

Definition isStrWhiteSpaceChar (c : ascii) : bool :=
  match N_of_ascii c with
  | 9%N | 10%N | 11%N | 12%N | 13%N | 32%N | 160%N => true
  | _ => false
  end.

Fixpoint trimStart (s : string) : string :=
  match s with
  | String c r => if isStrWhiteSpaceChar c then trimStart r else s
  | EmptyString => s
  end.

Definition digitValue (c : ascii) : option Z :=
  let n := Z.of_N (N_of_ascii c) in
  if (48 <=? n) && (n <=? 57) then Some (n - 48) else None.

(** [DecimalDigits]: the value read so far, the number of digits read, and
    what follows them. *)
Fixpoint decimalDigits (s : string) (acc count : Z) : Z * Z * string :=
  match s with
  | String c r =>
      match digitValue c with
      | Some d => decimalDigits r (10 * acc + d) (count + 1)
      | None => (acc, count, s)
      end
  | EmptyString => (acc, count, s)
  end.

(** [ExponentPart], when one can be read at the head of [s]; otherwise the
    exponent is 0 and the prefix ends before it. *)
Definition exponentPart (s : string) : Z :=
  match s with
  | String c r =>
      if (Ascii.eqb c "e" || Ascii.eqb c "E")%bool then
        match r with
        | String sg r' =>
            if Ascii.eqb sg "-" then
              let '(v, n, _) := decimalDigits r' 0 0 in
              if 0 <? n then - v else 0
            else if Ascii.eqb sg "+" then
              let '(v, n, _) := decimalDigits r' 0 0 in
              if 0 <? n then v else 0
            else
              let '(v, n, _) := decimalDigits r 0 0 in
              if 0 <? n then v else 0
        | EmptyString => 0
        end
      else 0
  | EmptyString => 0
  end.

(** The number nearest to [m * 10 ^ e10] for [0 <= m], ties to even.  A
    negative [e10] divides: the quotient is taken with more than 64 bits
    and a last bit that records a non-zero remainder, so that the final
    rounding sees on which side of a tie the exact value lies. *)
Definition number_of_decimal (m e10 : Z) : number :=
  if 0 <=? e10 then number_of_Z (m * 10 ^ e10)
  else
    let d := 10 ^ (- e10) in
    let k := Z.log2 d + 70 in
    let q := (m * 2 ^ k) / d in
    let sticky := if (m * 2 ^ k) mod d =? 0 then 0 else 1 in
    SF2Prim (binary_normalize prec emax (2 * q + sticky) (- k - 1) false).

(** [StrUnsignedDecimalLiteral]: the longest prefix of [s] that is one, as
    a number; [None] when there is none. *)
Definition strUnsignedDecimalLiteral (s : string) : option number :=
  if String.prefix "Infinity" s then Some infinity
  else
    let '(iv, ic, r1) := decimalDigits s 0 0 in
    let '(fv, fc, r2) :=
      match r1 with
      | String c r =>
          if Ascii.eqb c "." then decimalDigits r 0 0 else (0, 0, r1)
      | EmptyString => (0, 0, r1)
      end in
    if (ic =? 0) && (fc =? 0) then None
    else Some (number_of_decimal (iv * 10 ^ fc + fv) (exponentPart r2 - fc)).

Definition parseFloat (s : string) : number :=
  let t := trimStart s in
  match t with
  | String c r =>
      if Ascii.eqb c "-" then
        match strUnsignedDecimalLiteral r with
        | Some x => (- x)%float
        | None => NaN
        end
      else if Ascii.eqb c "+" then
        match strUnsignedDecimalLiteral r with
        | Some x => x
        | None => NaN
        end
      else
        match strUnsignedDecimalLiteral t with
        | Some x => x
        | None => NaN
        end
  | EmptyString => NaN
  end.

(** *** [Number.prototype.toString] and [Number.prototype.toFixed] *)

Fixpoint digitsOfZ (fuel : nat) (z : Z) (acc : string) : string :=
  let acc' := String (ascii_of_N (Z.to_N (48 + z mod 10))) acc in
  match fuel with
  | O => acc'
  | S fuel' => if z <? 10 then acc' else digitsOfZ fuel' (z / 10) acc'
  end.

(** The decimal digits of an integer [0 <= z]. *)
Definition stringOfZ (z : Z) : string :=
  digitsOfZ (Z.to_nat (Z.log2 z)) z EmptyString.

Fixpoint zeros (n : nat) : string :=
  match n with
  | O => EmptyString
  | S n' => String "0" (zeros n')
  end.

(** [floor (m * 2 ^ e * 10 ^ j)] for a finite positive number [m * 2 ^ e]. *)
Definition scaledFloor (m e j : Z) : Z :=
  (m * 2 ^ Z.max e 0 * 10 ^ Z.max j 0)
  / (2 ^ Z.max (- e) 0 * 10 ^ Z.max (- j) 0).

(** Twice [m * 2 ^ e * 10 ^ j] compared with the odd integer [2 * s + 1]:
    on which side of the middle of [s] and [s + 1] the value lies. *)
Definition compareMiddle (m e j s : Z) : comparison :=
  (2 * (m * 2 ^ Z.max e 0 * 10 ^ Z.max j 0))
  ?= ((2 * s + 1) * (2 ^ Z.max (- e) 0 * 10 ^ Z.max (- j) 0)).

(** The [n] with [10 ^ (n - 1) <= m * 2 ^ e < 10 ^ n], searched upwards
    from [n]. *)
Fixpoint decimalExponent (fuel : nat) (m e n : Z) : Z :=
  match fuel with
  | O => n
  | S fuel' =>
      if scaledFloor m e (- n) =? 0 then n
      else decimalExponent fuel' m e (n + 1)
  end.

(** The shortest digits [s] (with [k] of them) for which [s * 10 ^ (n - k)]
    reads back as [x]; of two candidates the nearer one, then the even
    one. *)
Fixpoint shortestDigits (fuel : nat) (x : number) (m e n k : Z) : Z * Z :=
  let lo := scaledFloor m e (k - n) in
  let hi := lo + 1 in
  let okLo := PrimFloat.eqb (number_of_decimal lo (n - k)) x in
  let okHi := (hi <? 10 ^ k) && PrimFloat.eqb (number_of_decimal hi (n - k)) x in
  match fuel with
  | O => (lo, k)
  | S fuel' =>
      if okLo && okHi then
        match compareMiddle m e (k - n) lo with
        | Lt => (lo, k)
        | Gt => (hi, k)
        | Eq => if Z.even lo then (lo, k) else (hi, k)
        end
      else if okLo then (lo, k)
      else if okHi then (hi, k)
      else shortestDigits fuel' x m e n (k + 1)
  end.

(** The text of a finite positive number from its digits [s], their count
    [k] and the decimal exponent [n]. *)
Definition formatDigits (s k n : Z) : string :=
  let ds := stringOfZ s in
  if (k <=? n) && (n <=? 21) then
    ds ++ zeros (Z.to_nat (n - k))
  else if (0 <? n) && (n <=? 21) then
    substring 0 (Z.to_nat n) ds ++ "." ++ substring (Z.to_nat n) (Z.to_nat (k - n)) ds
  else if (-6 <? n) && (n <=? 0) then
    "0." ++ zeros (Z.to_nat (- n)) ++ ds
  else
    let ex := (if n - 1 <? 0 then "-" else "+") ++ stringOfZ (Z.abs (n - 1)) in
    if k =? 1 then ds ++ "e" ++ ex
    else substring 0 1 ds ++ "." ++ substring 1 (Z.to_nat (k - 1)) ds ++ "e" ++ ex.

Definition Number_toString (x : number) : string :=
  match Prim2SF x with
  | S754_nan => "NaN"
  | S754_zero _ => "0"
  | S754_infinity s => if s then "-Infinity" else "Infinity"
  | S754_finite sg m e =>
      let ax := abs x in
      let bits := Z.log2 (Z.pos m) + e in
      let n := decimalExponent 4 (Z.pos m) e (bits * 30103 / 100000 - 1) in
      let '(s, k, n') :=
        if PrimFloat.eqb (number_of_decimal 1 n) ax then (1, 1, n + 1)
        else let '(s, k) := shortestDigits 17 ax (Z.pos m) e n 1 in (s, k, n) in
      (if sg then "-" else "") ++ formatDigits s k n'
  end.

(** [x.toFixed(f)] for [0 <= f <= 100]. *)
Definition Number_toFixed (x : number) (f : Z) : string :=
  match Prim2SF x with
  | S754_finite sg m e =>
      if 10 ^ 21 <=? scaledFloor (Z.pos m) e 0 then Number_toString x
      else
        let lo := scaledFloor (Z.pos m) e f in
        let n := match compareMiddle (Z.pos m) e f lo with
                 | Lt => lo
                 | _ => lo + 1
                 end in
        let ds := stringOfZ n in
        let k := Z.of_nat (String.length ds) in
        let ds' := if k <=? f then zeros (Z.to_nat (f + 1 - k)) ++ ds else ds in
        let k' := Z.of_nat (String.length ds') in
        (if sg then "-" else "")
        ++ (if f =? 0 then ds'
            else substring 0 (Z.to_nat (k' - f)) ds' ++ "."
                 ++ substring (Z.to_nat (k' - f)) (Z.to_nat f) ds')
  | S754_zero _ =>
      if f =? 0 then "0" else "0." ++ zeros (Z.to_nat f)
  | _ => Number_toString x
  end.

End JS.

Import JS.

(** ** types.ts *)

Inductive AppView := LOGIN | DASHBOARD | MAP_NAVIGATION.

Inductive MissionStatus :=
| IDLE | CALCULATING | ENROUTE_PATIENT | AT_PATIENT | ENROUTE_HOSPITAL | COMPLETED.

Inductive TrafficLightState := RED | YELLOW | GREEN | GREEN_CORRIDOR_ACTIVE.

Record Coordinate := { lat : number; lng : number }.

Inductive Severity := Low | Medium | Critical.

Module EmergencyDetails.
Record t := {
  type : string;
  severity : Severity;
  patientName : string;
  description : string
}.
End EmergencyDetails.

Inductive LogType := info | warning | success | analysis.

Module AILog.
Record t := {
  id : string;
  timestamp : string;
  message : string;
  type : LogType
}.
End AILog.

(** [a === b] on the values of an enum. *)
Class StrictEq (A : Type) := strict_eqb : A -> A -> bool.

Infix "===" := strict_eqb (at level 70, no associativity).

#[export] Instance AppView_StrictEq : StrictEq AppView := fun a b =>
  match a, b with
  | LOGIN, LOGIN | DASHBOARD, DASHBOARD | MAP_NAVIGATION, MAP_NAVIGATION => true
  | _, _ => false
  end.

#[export] Instance MissionStatus_StrictEq : StrictEq MissionStatus := fun a b =>
  match a, b with
  | IDLE, IDLE | CALCULATING, CALCULATING | ENROUTE_PATIENT, ENROUTE_PATIENT
  | AT_PATIENT, AT_PATIENT | ENROUTE_HOSPITAL, ENROUTE_HOSPITAL
  | COMPLETED, COMPLETED => true
  | _, _ => false
  end.

#[export] Instance TrafficLightState_StrictEq : StrictEq TrafficLightState := fun a b =>
  match a, b with
  | RED, RED | YELLOW, YELLOW | GREEN, GREEN
  | GREEN_CORRIDOR_ACTIVE, GREEN_CORRIDOR_ACTIVE => true
  | _, _ => false
  end.

(** ** The component's state *)

Definition BASE_LAT : number := 40.785091%float.
Definition BASE_LNG : number := (-73.968285)%float.
Definition HOSPITAL_LOC : Coordinate :=
  {| lat := 40.789125%float; lng := (-73.954605)%float |}.

(** One field per [useState] of [App]. *)
Record State := {
  view : AppView;
  status : MissionStatus;
  ambulancePos : Coordinate;
  targetPos : option Coordinate;
  emergency : EmergencyDetails.t;
  logs : list AILog.t;
  speed : number;
  distance : string;
  eta : string;
  trafficState : TrafficLightState;
  showTransModal : bool;
  manualLat : string;
  manualLng : string
}.

(** The closure handed to [setTimeout] in [handleArrival]: it keeps the
    [targetPos] of the render that scheduled it. *)
Record Timeout := {
  timeout_targetPos : option Coordinate;
  timeout_delay : Z
}.

(** A call of [analyzeEmergency] that has not resolved yet. *)
Record AnalysisCall := {
  call_type : string;
  call_severity : Severity;
  call_traffic : string
}.

(** The state together with the work the handlers left pending: timers in
    the order they were set, [await]ed analysis calls, geolocation requests,
    and the [alert]s shown so far.

    [renders] are the renders of [App] that contained [<MapComponent>],
    oldest first.  Each of them created its own [handleRouteFound],
    [handlePositionUpdate], [handleDistanceUpdate],
    [handleTrafficSignalUpdate] and [handleArrival], closed over the state
    variables of that render, and passed them to the map component as props.
    The map component is not part of these sources: it may call a callback
    it was given more than once, and after later renders. *)
Record World := {
  app : State;
  renders : list State;
  timers : list Timeout;
  analysisCalls : list AnalysisCall;
  geoRequests : nat;
  alerts : list string
}.

(** What [addLog] draws from the environment for an entry:
    [Math.random().toString(36).substr(2, 9)] and
    [new Date().toLocaleTimeString()]. *)
Record Stamp := { stamp_id : string; stamp_time : string }.

(** A handler queues updates; React applies them in order. *)
Definition Effect : Type := World -> World.

Definition skip : Effect := fun w => w.

Definition seq (a b : Effect) : Effect := fun w => b (a w).

Declare Scope effect_scope.
Delimit Scope effect_scope with effect.
Bind Scope effect_scope with Effect.
Notation "a ;; b" := (seq a b) (at level 61, right associativity) : effect_scope.

Definition update (f : State -> State) : Effect := fun w =>
  {| app := f (app w); renders := renders w; timers := timers w;
     analysisCalls := analysisCalls w;
     geoRequests := geoRequests w; alerts := alerts w |}.

Definition setView (v : AppView) : Effect := update (fun s =>
  {| view := v; status := status s; ambulancePos := ambulancePos s;
     targetPos := targetPos s; emergency := emergency s; logs := logs s;
     speed := speed s; distance := distance s; eta := eta s;
     trafficState := trafficState s; showTransModal := showTransModal s;
     manualLat := manualLat s; manualLng := manualLng s |}).

Definition setStatus (v : MissionStatus) : Effect := update (fun s =>
  {| view := view s; status := v; ambulancePos := ambulancePos s;
     targetPos := targetPos s; emergency := emergency s; logs := logs s;
     speed := speed s; distance := distance s; eta := eta s;
     trafficState := trafficState s; showTransModal := showTransModal s;
     manualLat := manualLat s; manualLng := manualLng s |}).

Definition setAmbulancePos (v : Coordinate) : Effect := update (fun s =>
  {| view := view s; status := status s; ambulancePos := v;
     targetPos := targetPos s; emergency := emergency s; logs := logs s;
     speed := speed s; distance := distance s; eta := eta s;
     trafficState := trafficState s; showTransModal := showTransModal s;
     manualLat := manualLat s; manualLng := manualLng s |}).

Definition setTargetPos (v : option Coordinate) : Effect := update (fun s =>
  {| view := view s; status := status s; ambulancePos := ambulancePos s;
     targetPos := v; emergency := emergency s; logs := logs s;
     speed := speed s; distance := distance s; eta := eta s;
     trafficState := trafficState s; showTransModal := showTransModal s;
     manualLat := manualLat s; manualLng := manualLng s |}).

Definition setEmergency (v : EmergencyDetails.t) : Effect := update (fun s =>
  {| view := view s; status := status s; ambulancePos := ambulancePos s;
     targetPos := targetPos s; emergency := v; logs := logs s;
     speed := speed s; distance := distance s; eta := eta s;
     trafficState := trafficState s; showTransModal := showTransModal s;
     manualLat := manualLat s; manualLng := manualLng s |}).

(** [setLogs] is only ever called with an updater function. *)
Definition setLogs (f : list AILog.t -> list AILog.t) : Effect := update (fun s =>
  {| view := view s; status := status s; ambulancePos := ambulancePos s;
     targetPos := targetPos s; emergency := emergency s; logs := f (logs s);
     speed := speed s; distance := distance s; eta := eta s;
     trafficState := trafficState s; showTransModal := showTransModal s;
     manualLat := manualLat s; manualLng := manualLng s |}).

Definition setSpeed (v : number) : Effect := update (fun s =>
  {| view := view s; status := status s; ambulancePos := ambulancePos s;
     targetPos := targetPos s; emergency := emergency s; logs := logs s;
     speed := v; distance := distance s; eta := eta s;
     trafficState := trafficState s; showTransModal := showTransModal s;
     manualLat := manualLat s; manualLng := manualLng s |}).

Definition setDistance (v : string) : Effect := update (fun s =>
  {| view := view s; status := status s; ambulancePos := ambulancePos s;
     targetPos := targetPos s; emergency := emergency s; logs := logs s;
     speed := speed s; distance := v; eta := eta s;
     trafficState := trafficState s; showTransModal := showTransModal s;
     manualLat := manualLat s; manualLng := manualLng s |}).

Definition setEta (v : string) : Effect := update (fun s =>
  {| view := view s; status := status s; ambulancePos := ambulancePos s;
     targetPos := targetPos s; emergency := emergency s; logs := logs s;
     speed := speed s; distance := distance s; eta := v;
     trafficState := trafficState s; showTransModal := showTransModal s;
     manualLat := manualLat s; manualLng := manualLng s |}).

Definition setTrafficState (v : TrafficLightState) : Effect := update (fun s =>
  {| view := view s; status := status s; ambulancePos := ambulancePos s;
     targetPos := targetPos s; emergency := emergency s; logs := logs s;
     speed := speed s; distance := distance s; eta := eta s;
     trafficState := v; showTransModal := showTransModal s;
     manualLat := manualLat s; manualLng := manualLng s |}).

Definition setShowTransModal (v : bool) : Effect := update (fun s =>
  {| view := view s; status := status s; ambulancePos := ambulancePos s;
     targetPos := targetPos s; emergency := emergency s; logs := logs s;
     speed := speed s; distance := distance s; eta := eta s;
     trafficState := trafficState s; showTransModal := v;
     manualLat := manualLat s; manualLng := manualLng s |}).

Definition setManualLat (v : string) : Effect := update (fun s =>
  {| view := view s; status := status s; ambulancePos := ambulancePos s;
     targetPos := targetPos s; emergency := emergency s; logs := logs s;
     speed := speed s; distance := distance s; eta := eta s;
     trafficState := trafficState s; showTransModal := showTransModal s;
     manualLat := v; manualLng := manualLng s |}).

Definition setManualLng (v : string) : Effect := update (fun s =>
  {| view := view s; status := status s; ambulancePos := ambulancePos s;
     targetPos := targetPos s; emergency := emergency s; logs := logs s;
     speed := speed s; distance := distance s; eta := eta s;
     trafficState := trafficState s; showTransModal := showTransModal s;
     manualLat := manualLat s; manualLng := v |}).

(** [setTimeout(callback, delay)]: the callback is queued behind the timers
    already set. *)
Definition setTimeout (t : Timeout) : Effect := fun w =>
  {| app := app w; renders := renders w; timers := (timers w ++ [t])%list;
     analysisCalls := analysisCalls w;
     geoRequests := geoRequests w; alerts := alerts w |}.

(** [await analyzeEmergency(...)]: the rest of the function runs when the
    call resolves. *)
Definition awaitAnalysis (c : AnalysisCall) : Effect := fun w =>
  {| app := app w; renders := renders w; timers := timers w;
     analysisCalls := (analysisCalls w ++ [c])%list;
     geoRequests := geoRequests w; alerts := alerts w |}.

Definition getCurrentPosition : Effect := fun w =>
  {| app := app w; renders := renders w; timers := timers w;
     analysisCalls := analysisCalls w;
     geoRequests := S (geoRequests w); alerts := alerts w |}.

Definition alert (msg : string) : Effect := fun w =>
  {| app := app w; renders := renders w; timers := timers w;
     analysisCalls := analysisCalls w;
     geoRequests := geoRequests w; alerts := (alerts w ++ [msg])%list |}.

(** Helper: Add Log *)
Definition addLog (message : string) (type : LogType) (stamp : Stamp) : Effect :=
  let newLog := {| AILog.id := stamp_id stamp;
                   AILog.timestamp := stamp_time stamp;
                   AILog.message := message;
                   AILog.type := type |} in
  setLogs (fun prev => (prev ++ [newLog])%list).

(** ** The handlers of [App]

    Each handler reads the state variables of the render [r] it was created
    in and queues its updates on the world it runs in.  What a handler draws
    from the environment (log stamps, [Math.random()], the result of an
    asynchronous call) is an argument. *)

Section Handlers.

Local Open Scope effect_scope.

Definition initialState : State :=
  {| view := LOGIN;
     status := IDLE;
     ambulancePos := {| lat := BASE_LAT; lng := BASE_LNG |};
     targetPos := None;
     emergency := {| EmergencyDetails.type := "Cardiac Arrest";
                     EmergencyDetails.severity := Critical;
                     EmergencyDetails.patientName := "John Doe";
                     EmergencyDetails.description :=
                       "Male, 55, chest pains, collapsed." |};
     logs := [];
     speed := 0%float;
     distance := "0.0 km";
     eta := "--:--";
     trafficState := RED;
     showTransModal := false;
     manualLat := Number_toString BASE_LAT;
     manualLng := Number_toString BASE_LNG |}.

Definition initialWorld : World :=
  {| app := initialState; renders := []; timers := []; analysisCalls := [];
     geoRequests := 0%nat; alerts := [] |}.

(** Login Handler *)
Definition handleLogin (st : Stamp) : Effect :=
  addLog "System initialized. User authenticated." success st ;;
  setView DASHBOARD.

(** Dashboard: Manual Location *)
Definition handleManualLocation (r : State) (st : Stamp) : Effect :=
  let lat := parseFloat (manualLat r) in
  let lng := parseFloat (manualLng r) in
  if negb (isNaN lat) && negb (isNaN lng) then
    setAmbulancePos {| lat := lat; lng := lng |} ;;
    addLog ("Manual coordinates set: " ++ Number_toFixed lat 4 ++ ", "
            ++ Number_toFixed lng 4) warning st
  else
    addLog "Invalid coordinates entered." warning st.

(** Dashboard: Auto Detect Location.  [hasGeolocation] is whether
    [navigator.geolocation] exists. *)
Definition handleAutoLocation (hasGeolocation : bool) (st1 st2 : Stamp) : Effect :=
  addLog "Initiating satellite triangulation..." info st1 ;;
  if hasGeolocation then getCurrentPosition
  else addLog "Geolocation module offline." warning st2.

Definition geolocationSuccess (latitude longitude : number) (st : Stamp) : Effect :=
  let newPos := {| lat := latitude; lng := longitude |} in
  setAmbulancePos newPos ;;
  setManualLat (Number_toString (lat newPos)) ;;
  setManualLng (Number_toString (lng newPos)) ;;
  addLog ("Location locked: " ++ Number_toFixed (lat newPos) 4 ++ ", "
          ++ Number_toFixed (lng newPos) 4) success st.

Definition geolocationError (st : Stamp) : Effect :=
  addLog "GPS Signal weak. Defaulting to Base Station." warning st.

(** Dashboard: Start Mission, up to the [await].  [rnd1] and [rnd2] are
    the two results of [Math.random()]. *)
Definition startMission (r : State) (rnd1 rnd2 : number) (st : Stamp) : Effect :=
  setView MAP_NAVIGATION ;;
  setStatus CALCULATING ;;
  addLog "Mission parameters uploaded. Analyzing route..." info st ;;
  let randomLat := (lat (ambulancePos r) + (rnd1 - 0.5) * 0.02)%float in
  let randomLng := (lng (ambulancePos r) + (rnd2 - 0.5) * 0.02)%float in
  setTargetPos (Some {| lat := randomLat; lng := randomLng |}) ;;
  awaitAnalysis {| call_type := EmergencyDetails.type (emergency r);
                   call_severity := EmergencyDetails.severity (emergency r);
                   call_traffic := "Heavy Congestion" |}.

(** Start Mission, from the [await] on: runs when [analyzeEmergency] has
    resolved to [aiAnalysis]. *)
Definition startMission_resumed (aiAnalysis : string) (st1 st2 : Stamp) : Effect :=
  addLog aiAnalysis analysis st1 ;;
  setStatus ENROUTE_PATIENT ;;
  setTrafficState GREEN_CORRIDOR_ACTIVE ;;
  addLog "GREEN CORRIDOR PROTOCOL: ACTIVE. All signals preempted." success st2.

(** Callback: Route Found from Map *)
Definition handleRouteFound (totalDistance totalTime : number) (st : Stamp) : Effect :=
  let distKm := Number_toFixed (totalDistance / 1000)%float 1 in
  let timeMin := Math_round (totalTime / 60)%float in
  setDistance (distKm ++ " km") ;;
  setEta (Number_toString timeMin ++ " min") ;;
  addLog ("Route Calculated. Dist: " ++ distKm ++ "km, ETA: "
          ++ Number_toString timeMin ++ "min") info st.

(** Callback: Real-time Position Update from Map.  [rnd] is the result of
    [Math.random()]. *)
Definition handlePositionUpdate (r : State) (pos : Coordinate) (rnd : number) : Effect :=
  if trafficState r === RED then
    setSpeed 0%float
  else
    let base := if status r === ENROUTE_HOSPITAL
                then 80%float else 50%float in
    let currentSpeed := Math_floor (base + rnd * 20)%float in
    setSpeed currentSpeed.

(** Callback: Distance Update (Running Distance) *)
Definition handleDistanceUpdate (meters : number) : Effect :=
  let km := Number_toFixed (meters / 1000)%float 2 in
  setDistance (km ++ " km").

(** Callback: Traffic Signal Update from Map *)
Definition handleTrafficSignalUpdate (r : State) (newState : TrafficLightState)
    (st : Stamp) : Effect :=
  setTrafficState newState ;;
  if newState === RED then
    addLog "Intersection Alert: RED Signal Detected. Braking..." warning st ;;
    setSpeed 0%float
  else if newState === GREEN_CORRIDOR_ACTIVE then
    if (trafficState r === RED) || (trafficState r === YELLOW) then
      addLog "Override Engaged: Green Wave Active. Accelerating." success st
    else skip
  else skip.

(** The callback [handleArrival] hands to [setTimeout]. *)
Definition arrivalTimeout (t : Timeout) : Effect :=
  alert "Mission Successfully Completed." ;;
  setView DASHBOARD ;;
  setStatus IDLE ;;
  setTargetPos None ;;
  setDistance "0.0 km" ;;
  setEta "--:--" ;;
  (* Reset position to hospital for next run *)
  match timeout_targetPos t with
  | Some p => setAmbulancePos p
  | None => skip
  end.

(** Callback: Arrival at Target *)
Definition handleArrival (r : State) (st : Stamp) : Effect :=
  if status r === ENROUTE_PATIENT then
    setStatus AT_PATIENT ;;
    setSpeed 0%float ;;
    setTrafficState YELLOW ;;
    addLog "Arrived at patient location. Medical team deploying." info st ;;
    setShowTransModal true
  else if status r === ENROUTE_HOSPITAL then
    setStatus COMPLETED ;;
    setSpeed 0%float ;;
    setTrafficState GREEN ;;
    addLog "Arrived at Hospital. Patient transfer initiated." success st ;;
    setTimeout {| timeout_targetPos := targetPos r; timeout_delay := 1000 |}
  else skip.

Definition handleTransportToHospital (r : State) (st1 st2 : Stamp) : Effect :=
  setShowTransModal false ;;
  (* CRITICAL: Update ambulance start position to where the patient was found *)
  match targetPos r with
  | Some p => setAmbulancePos p
  | None => skip
  end ;;
  (* Set new target to Hospital *)
  setTargetPos (Some HOSPITAL_LOC) ;;
  setStatus ENROUTE_HOSPITAL ;;
  (* Reset traffic state to allow signals to control it *)
  setTrafficState GREEN ;;
  addLog "Patient secured. Rerouting to Trauma Center." warning st1 ;;
  addLog "High Speed Protocol Engaged. Signals Syncing..." success st2.

(** The [onClick] of the Abort Mission button. *)
Definition abortMission : Effect :=
  setView DASHBOARD ;; setStatus IDLE.

(** The [onChange] of the emergency-type select and of the two coordinate
    inputs. *)
Definition changeEmergencyType (r : State) (v : string) : Effect :=
  setEmergency
    {| EmergencyDetails.type := v;
       EmergencyDetails.severity := EmergencyDetails.severity (emergency r);
       EmergencyDetails.patientName := EmergencyDetails.patientName (emergency r);
       EmergencyDetails.description := EmergencyDetails.description (emergency r) |}.

Definition changeManualLat (v : string) : Effect := setManualLat v.
Definition changeManualLng (v : string) : Effect := setManualLng v.

(** ** Events

    What can happen to the component: the operator's clicks and edits, the
    callbacks of the map component, and the completion of pending work.  A
    callback that reads state variables ([handlePositionUpdate],
    [handleTrafficSignalUpdate], [handleArrival]) comes with the number [k]
    of the render, among [renders], whose instance of it is called. *)
Inductive Event :=
| Login (st : Stamp)
| ChangeEmergencyType (v : string)
| ChangeManualLat (v : string)
| ChangeManualLng (v : string)
| ManualLocation (st : Stamp)
| AutoLocation (hasGeolocation : bool) (st1 st2 : Stamp)
| GeolocationSuccess (latitude longitude : number) (st : Stamp)
| GeolocationError (st : Stamp)
| StartMission (rnd1 rnd2 : number) (st : Stamp)
| AnalysisResolved (aiAnalysis : string) (st1 st2 : Stamp)
| AnalysisRejected
| RouteFound (totalDistance totalTime : number) (st : Stamp)
| PositionUpdate (k : nat) (pos : Coordinate) (rnd : number)
| DistanceUpdate (meters : number)
| TrafficSignalUpdate (k : nat) (newState : TrafficLightState) (st : Stamp)
| Arrival (k : nat) (st : Stamp)
| TimeoutFired
| TransportToHospital (st1 st2 : Stamp)
| AbortMission.

Definition popTimer : Effect := fun w =>
  {| app := app w; renders := renders w; timers := tl (timers w);
     analysisCalls := analysisCalls w;
     geoRequests := geoRequests w; alerts := alerts w |}.

Definition popAnalysisCall : Effect := fun w =>
  {| app := app w; renders := renders w; timers := timers w;
     analysisCalls := tl (analysisCalls w);
     geoRequests := geoRequests w; alerts := alerts w |}.

Definition popGeoRequest : Effect := fun w =>
  {| app := app w; renders := renders w; timers := timers w;
     analysisCalls := analysisCalls w;
     geoRequests := Nat.pred (geoRequests w); alerts := alerts w |}.

(** The render number [k] among those that gave their callbacks to the map
    component. *)
Definition rendered (w : World) (k : nat) : option State :=
  nth_error (renders w) k.

(** Whether the event can occur in [w]: a control can be clicked in the
    view that renders it (the transport button also needs the modal); a
    completion needs the pending work it completes; a callback of the map
    component needs a render that gave it to the map, and is otherwise not
    constrained: it may come from any such render, in any state. *)
Definition enabled (w : World) (ev : Event) : bool :=
  match ev with
  | Login _ => view (app w) === LOGIN
  | ChangeEmergencyType _ | ChangeManualLat _ | ChangeManualLng _
  | ManualLocation _ | AutoLocation _ _ _ | StartMission _ _ _ =>
      view (app w) === DASHBOARD
  | GeolocationSuccess _ _ _ | GeolocationError _ =>
      negb (Nat.eqb (geoRequests w) 0)
  | AnalysisResolved _ _ _ | AnalysisRejected =>
      match analysisCalls w with [] => false | _ :: _ => true end
  | TimeoutFired =>
      match timers w with [] => false | _ :: _ => true end
  | TransportToHospital _ _ =>
      (view (app w) === MAP_NAVIGATION) && showTransModal (app w)
  | AbortMission =>
      view (app w) === MAP_NAVIGATION
  | RouteFound _ _ _ | DistanceUpdate _ =>
      match renders w with [] => false | _ :: _ => true end
  | PositionUpdate k _ _ | TrafficSignalUpdate k _ _ | Arrival k _ =>
      match rendered w k with Some _ => true | None => false end
  end.

(** The handler of an event.  A click or an edit runs the handler of the
    current render [app w]: React renders again before the next one.  A
    callback of the map component runs the handler of the render [k] it
    names. *)
Definition handle (w : World) (ev : Event) : World :=
  let r := app w in
  match ev with
  | Login st => handleLogin st w
  | ChangeEmergencyType v => changeEmergencyType r v w
  | ChangeManualLat v => changeManualLat v w
  | ChangeManualLng v => changeManualLng v w
  | ManualLocation st => handleManualLocation r st w
  | AutoLocation g st1 st2 => handleAutoLocation g st1 st2 w
  | GeolocationSuccess la lo st => (popGeoRequest ;; geolocationSuccess la lo st) w
  | GeolocationError st => (popGeoRequest ;; geolocationError st) w
  | StartMission rnd1 rnd2 st => startMission r rnd1 rnd2 st w
  | AnalysisResolved a st1 st2 => (popAnalysisCall ;; startMission_resumed a st1 st2) w
  | AnalysisRejected => popAnalysisCall w
  | RouteFound d t st => handleRouteFound d t st w
  | PositionUpdate k pos rnd =>
      match rendered w k with
      | Some rk => handlePositionUpdate rk pos rnd w
      | None => w
      end
  | DistanceUpdate m => handleDistanceUpdate m w
  | TrafficSignalUpdate k n st =>
      match rendered w k with
      | Some rk => handleTrafficSignalUpdate rk n st w
      | None => w
      end
  | Arrival k st =>
      match rendered w k with
      | Some rk => handleArrival rk st w
      | None => w
      end
  | TimeoutFired =>
      match timers w with
      | t :: _ => (popTimer ;; arrivalTimeout t) w
      | [] => w
      end
  | TransportToHospital st1 st2 => handleTransportToHospital r st1 st2 w
  | AbortMission => abortMission w
  end.

(** The updates a handler queued are applied together and [App] renders
    again; in the map view the new render gives its callbacks to the map
    component. *)
Definition commit (w : World) : World :=
  if view (app w) === MAP_NAVIGATION then
    {| app := app w; renders := (renders w ++ [app w])%list;
       timers := timers w; analysisCalls := analysisCalls w;
       geoRequests := geoRequests w; alerts := alerts w |}
  else w.

(** An event, handled and committed. *)
Definition next (w : World) (ev : Event) : World := commit (handle w ev).

Definition step (w : World) (ev : Event) : option World :=
  if enabled w ev then Some (next w ev) else None.

(** The worlds the component can be in. *)
Inductive reachable : World -> Prop :=
| reachable_init : reachable initialWorld
| reachable_step w ev w' :
    reachable w -> step w ev = Some w' -> reachable w'.

(** Running a list of events, stopping at the first that cannot occur. *)
Fixpoint run (w : World) (evs : list Event) : option World :=
  match evs with
  | [] => Some w
  | ev :: evs' =>
      match step w ev with
      | Some w' => run w' evs'
      | None => None
      end
  end.

End Handlers.

(** ** Definitions used by the statements *)

(** The invariant of the mission: a red signal means the vehicle stands. *)
Definition red_means_stopped (s : State) : Prop :=
  trafficState s = RED -> speed s = 0%float.

(** The map component calling the [handleArrival] of render [k] once per
    stamp. *)
Definition arrivals (w : World) (k : nat) (sts : list Stamp) : World :=
  fold_left (fun w' st => next w' (Arrival k st)) sts w.

(** The stamp given to every log entry of the sample mission. *)
Definition stamp0 : Stamp :=
  {| stamp_id := "k3j9x0a1b"; stamp_time := "10:15:00 AM" |}.

(** The sample mission: login, start with the two random draws 0.25 and
    0.75, resolution of the analysis, arrival at the patient, begin of the
    transport, arrival at the hospital, and the reset by the timer.  Every
    callback of the map is the one of the latest render: render 0 is the
    one after the start, render 1 the one after the analysis, render 2 the
    one at the patient, render 3 the one after the begin of the transport. *)
Definition dashboardWorld : World :=
  next initialWorld (Login stamp0).

Definition calculatingWorld : World :=
  next dashboardWorld (StartMission 0.25%float 0.75%float stamp0).

Definition enroutePatientWorld : World :=
  next calculatingWorld
    (AnalysisResolved "Critical cardiac case: priority corridor advised."
       stamp0 stamp0).

Definition atPatientWorld : World :=
  next enroutePatientWorld (Arrival 1 stamp0).

Definition enrouteHospitalWorld : World :=
  next atPatientWorld (TransportToHospital stamp0 stamp0).

Definition completedWorld : World :=
  next enrouteHospitalWorld (Arrival 3 stamp0).

Definition resetWorld : World :=
  next completedWorld TimeoutFired.

(** Where the patient of this mission is found. *)
Definition patientPos : Coordinate :=
  {| lat := (BASE_LAT + (0.25 - 0.5) * 0.02)%float;
     lng := (BASE_LNG + (0.75 - 0.5) * 0.02)%float |}.

(** While no analysis resolves, a mission that is idle or calculating with
    the transport confirmation closed, and was so in every render the map
    has callbacks of, stays so. *)
Definition awaiting_analysis (w : World) : Prop :=
  (status (app w) = IDLE \/ status (app w) = CALCULATING)
  /\ showTransModal (app w) = false
  /\ Forall (fun r => status r = IDLE \/ status r = CALCULATING) (renders w).

Definition is_AnalysisResolved (ev : Event) : bool :=
  match ev with AnalysisResolved _ _ _ => true | _ => false end.

(** The callback set by an arrival at the hospital. *)
Definition hospitalTimeout : Timeout :=
  {| timeout_targetPos := Some HOSPITAL_LOC; timeout_delay := 1000 |}.

(** On the hospital leg the target is the hospital. *)
Definition hospital_leg_targets_hospital (s : State) : Prop :=
  status s = ENROUTE_HOSPITAL -> targetPos s = Some HOSPITAL_LOC.

(** What holds of the target and of the pending timers in every reachable
    world: on the hospital leg the target is the hospital, now and in every
    render the map has callbacks of; every pending timer was set on that
    leg; a completed mission has its timer pending. *)
Definition mission_end_inv (w : World) : Prop :=
  hospital_leg_targets_hospital (app w)
  /\ Forall hospital_leg_targets_hospital (renders w)
  /\ Forall (fun t => t = hospitalTimeout) (timers w)
  /\ (status (app w) = COMPLETED -> timers w <> []).

(** A world in which a mission is under way and the HUD shows live
    values: a tick at jitter 0.5 and a running distance of 1234 m. *)
Definition drivingWorld : World :=
  next
    (next enroutePatientWorld
       (PositionUpdate 1 {| lat := BASE_LAT; lng := BASE_LNG |} 0.5%float))
    (DistanceUpdate 1234%float).

(** A world in which the operator aborted while the analysis was pending,
    and the analysis then resolved. *)
Definition abortedThenResolvedWorld : World :=
  next (next calculatingWorld AbortMission)
    (AnalysisResolved "Critical cardiac case: priority corridor advised."
       stamp0 stamp0).

Definition brakingLog (st : Stamp) : AILog.t :=
  {| AILog.id := stamp_id st; AILog.timestamp := stamp_time st;
     AILog.message := "Intersection Alert: RED Signal Detected. Braking...";
     AILog.type := warning |}.

Definition overrideLog (st : Stamp) : AILog.t :=
  {| AILog.id := stamp_id st; AILog.timestamp := stamp_time st;
     AILog.message := "Override Engaged: Green Wave Active. Accelerating.";
     AILog.type := success |}.

Definition invalidCoordinatesLog (st : Stamp) : AILog.t :=
  {| AILog.id := stamp_id st; AILog.timestamp := stamp_time st;
     AILog.message := "Invalid coordinates entered.";
     AILog.type := warning |}.

(** The dashboard with "abc" and "xyz" typed into the coordinate inputs. *)
Definition badInputWorld : World :=
  next (next dashboardWorld (ChangeManualLat "abc")) (ChangeManualLng "xyz").

(** A finite number in units of [2 ^ -1074], of which every binary64 value
    is a whole multiple. *)
Definition ticks (m : positive) (e : Z) : Z := Z.pos m * 2 ^ (e + 1074).

(** [20], [50] and [80] as binary64 values. *)
Definition SF20 : spec_float := S754_finite false 5629499534213120 (-48).
Definition SF50 : spec_float := S754_finite false 7036874417766400 (-47).
Definition SF80 : spec_float := S754_finite false 5629499534213120 (-46).

(** The integers [lo], [lo + 1], ..., [n] of them. *)
Fixpoint interval (lo : Z) (n : nat) : list Z :=
  match n with
  | O => []
  | S k => lo :: interval (lo + 1) k
  end.

(** The largest multiple of [2 ^ -52] below 1. *)
Definition nearOne : number := 0x1.ffffffffffffep-1%float.

(** The jitter of a position tick is a result of [Math.random()]: a number
    in [0, 1). *)
Definition jitter_ok (ev : Event) : bool :=
  match ev with
  | PositionUpdate _ _ rnd => ((0 <=? rnd)%float && (rnd <? 1)%float)%bool
  | _ => true
  end.

(** The speeds the HUD can show: 0, or a whole number from 50 to 100. *)
Definition speed_in_range (s : number) : Prop :=
  s = 0%float \/ exists n, 50 <= n <= 100 /\ s = number_of_Z n.

(** The entry an arrival at the hospital logs. *)
Definition isHospitalArrivalLog (l : AILog.t) : bool :=
  match AILog.type l with
  | success =>
      String.eqb (AILog.message l)
        "Arrived at Hospital. Patient transfer initiated."
  | _ => false
  end.

(** The entry start-mission logs, and the entry its continuation logs when
    it activates the corridor. *)
Definition isStartLog (l : AILog.t) : bool :=
  match AILog.type l with
  | info =>
      String.eqb (AILog.message l)
        "Mission parameters uploaded. Analyzing route..."
  | _ => false
  end.

Definition isCorridorLog (l : AILog.t) : bool :=
  match AILog.type l with
  | success =>
      String.eqb (AILog.message l)
        "GREEN CORRIDOR PROTOCOL: ACTIVE. All signals preempted."
  | _ => false
  end.

Definition count (f : AILog.t -> bool) (l : list AILog.t) : nat :=
  List.length (filter f l).

(** Arrivals at the hospital are acknowledged one by one: those logged are
    those whose alert was shown plus those whose timer is pending.  And the
    corridor is activated at most once per start of a mission. *)
Definition bookkeeping_inv (w : World) : Prop :=
  count isHospitalArrivalLog (logs (app w))
  = (List.length (alerts w) + List.length (timers w))%nat
  /\ Forall (fun a => a = "Mission Successfully Completed.") (alerts w)
  /\ (count isCorridorLog (logs (app w)) + List.length (analysisCalls w)
      <= count isStartLog (logs (app w)))%nat.

(** The part of the emergency configuration no control can edit, and the
    arguments every analysis call is made with. *)
Definition fixed_configuration (w : World) : Prop :=
  EmergencyDetails.severity (emergency (app w)) = Critical
  /\ EmergencyDetails.patientName (emergency (app w)) = "John Doe"
  /\ EmergencyDetails.description (emergency (app w))
     = "Male, 55, chest pains, collapsed."
  /\ Forall (fun c => call_severity c = Critical
                      /\ call_traffic c = "Heavy Congestion")
       (analysisCalls w).

(** A text that starts with a decimal digit. *)
Definition startsWithDigit (s : string) : Prop :=
  exists c d r, s = String c r /\ digitValue c = Some d.

(** [0.5], [0.02] and [0.01] as binary64 values. *)
Definition SFhalf : spec_float := S754_finite false 4503599627370496 (-53).
Definition SF002 : spec_float := S754_finite false 5764607523034235 (-58).
Definition SF001 : spec_float := S754_finite false 5764607523034235 (-59).

(** The number of the latest render the map has callbacks of. *)
Definition latest (w : World) : nat := Nat.pred (List.length (renders w)).

(** The mission under way, then two calls of the map component, both on the
    callbacks of render 1 (the one after the analysis, signal
    GREEN_CORRIDOR_ACTIVE): a signal event that carries red, then a
    position tick at jitter 0.5. *)
Definition redThenTickWorld : World :=
  next (next enroutePatientWorld (TrafficSignalUpdate 1 RED stamp0))
    (PositionUpdate 1 patientPos 0.5%float).

Definition arrivalLog (st : Stamp) : AILog.t :=
  {| AILog.id := stamp_id st; AILog.timestamp := stamp_time st;
     AILog.message := "Arrived at patient location. Medical team deploying.";
     AILog.type := info |}.

(** The mission under way, a red signal, and then two calls of the
    [handleTrafficSignalUpdate] of render 2 (the one under the red signal),
    both carrying GREEN_CORRIDOR_ACTIVE. *)
Definition redWorld : World :=
  next enroutePatientWorld (TrafficSignalUpdate 1 RED stamp0).

Definition corridorTwiceWorld : World :=
  next (next redWorld (TrafficSignalUpdate 2 GREEN_CORRIDOR_ACTIVE stamp0))
    (TrafficSignalUpdate 2 GREEN_CORRIDOR_ACTIVE stamp0).

(** What every committed world has: in the map view the latest render the
    map has callbacks of is the current one, and a mission on its hospital
    leg is shown in the map view. *)
Definition map_view_inv (w : World) : Prop :=
  (view (app w) = MAP_NAVIGATION -> rendered w (latest w) = Some (app w))
  /\ (status (app w) = ENROUTE_HOSPITAL -> view (app w) = MAP_NAVIGATION).

(** The world [w] with the ambulance at [p] and the entries [l] appended to
    the log, every other state variable and all pending work as in [w]. *)
Definition moved_and_logged (w : World) (p : Coordinate) (l : list AILog.t)
    : World :=
  {| app := {| view := view (app w);
               status := status (app w);
               ambulancePos := p;
               targetPos := targetPos (app w);
               emergency := emergency (app w);
               logs := (logs (app w) ++ l)%list;
               speed := speed (app w);
               distance := distance (app w);
               eta := eta (app w);
               trafficState := trafficState (app w);
               showTransModal := showTransModal (app w);
               manualLat := manualLat (app w);
               manualLng := manualLng (app w) |};
     renders := renders w;
     timers := timers w;
     analysisCalls := analysisCalls w;
     geoRequests := geoRequests w;
     alerts := alerts w |}.

(** A callback of the map that is the one of the latest render, called
    while the map is shown: the handler then reads the state of the world
    it runs in. *)
Definition fresh (w : World) (ev : Event) : bool :=
  match ev with
  | PositionUpdate k _ _ | TrafficSignalUpdate k _ _ | Arrival k _ =>
      (view (app w) === MAP_NAVIGATION) && Nat.eqb k (latest w)
  | _ => true
  end.

(** A run in which every callback of the map is fresh. *)
Fixpoint fresh_run (w : World) (evs : list Event) : bool :=
  match evs with
  | [] => true
  | ev :: evs' => fresh w ev && fresh_run (next w ev) evs'
  end.

(** ** Proof steps *)

Arguments parseFloat : simpl never.
Arguments Number_toString : simpl never.
Arguments Number_toFixed : simpl never.
Arguments Math_floor : simpl never.
Arguments Math_round : simpl never.

(** Proof steps: [unfold_handlers] exposes the body of a handler, with
    its conditions still to be decided; [run_effects] then computes the
    updates it queues.  The conditions are decided first, by case analysis:
    an update that sits behind an undecided condition would have to be
    carried along in every field of the state. *)
Ltac unfold_handlers :=
  unfold handle, handleLogin, handleManualLocation, handleAutoLocation,
    geolocationSuccess, geolocationError, startMission, startMission_resumed,
    handleRouteFound, handlePositionUpdate, handleDistanceUpdate,
    handleTrafficSignalUpdate, arrivalTimeout, handleArrival,
    handleTransportToHospital, abortMission, changeEmergencyType,
    changeManualLat, changeManualLng,
    strict_eqb, AppView_StrictEq, MissionStatus_StrictEq,
    TrafficLightState_StrictEq in *.

Ltac run_effects :=
  unfold skip in *;
  cbn [popTimer popAnalysisCall popGeoRequest
       addLog setTimeout awaitAnalysis getCurrentPosition alert
       setView setStatus setAmbulancePos setTargetPos setEmergency setLogs
       setSpeed setDistance setEta setTrafficState setShowTransModal
       setManualLat setManualLng update seq skip
       app renders timers analysisCalls geoRequests alerts
       view status ambulancePos targetPos emergency logs speed distance eta
       trafficState showTransModal manualLat manualLng
       orb andb negb] in *.

(** [each_event w ev]: the handler of every event, with the conditions it
    branches on decided.  For a callback of the map these are conditions on
    the render [rk] that it comes from. *)
Ltac each_event w ev :=
  destruct ev; unfold_handlers;
  [ | | | |
    try destruct (negb (isNaN _) && negb (isNaN _))
  | match goal with g : bool |- _ => destruct g end
  | | | | | | |
    destruct (rendered w _) as [rk|] eqn:?;
    [destruct (trafficState rk) eqn:?; destruct (status rk) eqn:?|]
  | |
    destruct (rendered w _) as [rk|] eqn:?;
    [match goal with n : TrafficLightState |- _ => destruct n end;
     destruct (trafficState rk) eqn:?|]
  | destruct (rendered w _) as [rk|] eqn:?; [destruct (status rk) eqn:?|]
  | destruct (timers w) as [|? ?] eqn:?;
    [|try destruct (timeout_targetPos _) eqn:?]
  | destruct (targetPos (app w)) eqn:?
  | ];
  run_effects.

(** ** Commits, runs and reachability *)

Lemma app_commit w : app (commit w) = app w.
Proof. unfold commit. now destruct (view (app w) === MAP_NAVIGATION). Qed.

Lemma timers_commit w : timers (commit w) = timers w.
Proof. unfold commit. now destruct (view (app w) === MAP_NAVIGATION). Qed.

Lemma analysisCalls_commit w : analysisCalls (commit w) = analysisCalls w.
Proof. unfold commit. now destruct (view (app w) === MAP_NAVIGATION). Qed.

Lemma geoRequests_commit w : geoRequests (commit w) = geoRequests w.
Proof. unfold commit. now destruct (view (app w) === MAP_NAVIGATION). Qed.

Lemma alerts_commit w : alerts (commit w) = alerts w.
Proof. unfold commit. now destruct (view (app w) === MAP_NAVIGATION). Qed.

Lemma renders_commit w :
  renders (commit w)
  = if view (app w) === MAP_NAVIGATION then (renders w ++ [app w])%list
    else renders w.
Proof. unfold commit. now destruct (view (app w) === MAP_NAVIGATION). Qed.

(** No handler touches the renders the map has callbacks of. *)
Lemma renders_handle w ev : renders (handle w ev) = renders w.
Proof. each_event w ev; reflexivity. Qed.

(** What a commit adds to the renders satisfies what the state satisfies. *)
Lemma Forall_renders_commit (P : State -> Prop) w :
  P (app w) -> Forall P (renders w) -> Forall P (renders (commit w)).
Proof.
  intros Ha Hr. rewrite renders_commit.
  destruct (view (app w) === MAP_NAVIGATION); [|exact Hr].
  apply Forall_app. split; [exact Hr|]. constructor; [exact Ha|constructor].
Qed.

Lemma Forall_rendered (P : State -> Prop) w k r :
  Forall P (renders w) -> rendered w k = Some r -> P r.
Proof.
  intros Hf Hk. rewrite Forall_forall in Hf. apply Hf.
  exact (nth_error_In _ _ Hk).
Qed.

Ltac commit_simpl :=
  unfold next in *;
  rewrite ?app_commit, ?timers_commit, ?analysisCalls_commit,
    ?geoRequests_commit, ?alerts_commit in *.

(** Induction over the reachable worlds, one committed event at a time. *)
Lemma reachable_next_ind (P : World -> Prop) :
  P initialWorld ->
  (forall w ev, reachable w -> P w -> enabled w ev = true -> P (next w ev)) ->
  forall w, reachable w -> P w.
Proof.
  intros H0 Hs w Hr. induction Hr as [|w ev w' Hr IH Hstep]; [exact H0|].
  unfold step in Hstep. destruct (enabled w ev) eqn:Hen; [|discriminate].
  injection Hstep as <-. now apply Hs.
Qed.

Lemma reachable_next w ev :
  reachable w -> enabled w ev = true -> reachable (next w ev).
Proof.
  intros Hr Hen. apply (reachable_step w ev); [exact Hr|].
  unfold step. now rewrite Hen.
Qed.

Lemma reachable_run evs : forall w w',
  reachable w -> run w evs = Some w' -> reachable w'.
Proof.
  induction evs as [|ev evs IH]; intros w w' Hw Hrun; simpl in Hrun.
  - now injection Hrun as <-.
  - destruct (step w ev) as [w1|] eqn:Hstep; [|discriminate].
    apply (IH w1 w'); [|exact Hrun]. now apply (reachable_step w ev w1).
Qed.

Lemma completedWorld_run :
  run initialWorld
    [Login stamp0; StartMission 0.25%float 0.75%float stamp0;
     AnalysisResolved "Critical cardiac case: priority corridor advised."
       stamp0 stamp0;
     Arrival 1 stamp0; TransportToHospital stamp0 stamp0; Arrival 3 stamp0]
  = Some completedWorld.
Proof. vm_compute. reflexivity. Qed.

Lemma completedWorld_reachable : reachable completedWorld.
Proof. exact (reachable_run _ _ _ reachable_init completedWorld_run). Qed.

Lemma enroutePatientWorld_reachable : reachable enroutePatientWorld.
Proof.
  apply (reachable_run
           [Login stamp0; StartMission 0.25%float 0.75%float stamp0;
            AnalysisResolved "Critical cardiac case: priority corridor advised."
              stamp0 stamp0] initialWorld).
  - exact reachable_init.
  - vm_compute. reflexivity.
Qed.

Lemma atPatientWorld_reachable : reachable atPatientWorld.
Proof.
  apply (reachable_next enroutePatientWorld (Arrival 1 stamp0)).
  - exact enroutePatientWorld_reachable.
  - vm_compute. reflexivity.
Qed.

(** In the map view the latest render the map has callbacks of is the
    current one. *)
Lemma nth_error_last (A : Type) (l : list A) (x : A) :
  nth_error (l ++ [x]) (Nat.pred (List.length (l ++ [x]))) = Some x.
Proof.
  rewrite length_app. cbn [List.length].
  replace (Nat.pred (List.length l + 1)) with (List.length l + 0)%nat by lia.
  rewrite nth_error_app2 by lia.
  replace (List.length l + 0 - List.length l)%nat with 0%nat by lia.
  reflexivity.
Qed.

Lemma reachable_map_view_inv w : reachable w -> map_view_inv w.
Proof.
  apply reachable_next_ind.
  - split; discriminate.
  - intros w0 ev _ [_ IH] Hen. unfold map_view_inv. split.
    + unfold next, rendered, latest. rewrite app_commit, renders_commit.
      intros Hv. rewrite Hv. cbn. apply nth_error_last.
    + unfold next. rewrite app_commit. revert IH Hen. unfold enabled.
      each_event w0 ev; intros IH Hen Hs; try discriminate; auto;
        try (apply IH; congruence);
        destruct (view (app w0)); try discriminate; try reflexivity;
        specialize (IH Hs); discriminate.
Qed.

(** ** Red signal and speed *)

Lemma fresh_reads_current_state w ev k r :
  reachable w -> fresh w ev = true ->
  match ev with
  | PositionUpdate k' _ _ | TrafficSignalUpdate k' _ _ | Arrival k' _ => k' = k
  | _ => False
  end ->
  rendered w k = Some r -> r = app w.
Proof.
  intros Hr Hf Hev Hk.
  assert (Hc : (view (app w) === MAP_NAVIGATION) && Nat.eqb k (latest w)
               = true)
    by (destruct ev; try contradiction; subst; exact Hf).
  apply andb_prop in Hc as [Hv Hl]. apply Nat.eqb_eq in Hl. subst k.
  destruct (reachable_map_view_inv w Hr) as [Hm _].
  rewrite Hm in Hk.
  - congruence.
  - destruct (view (app w)); try discriminate; reflexivity.
Qed.

Lemma fresh_keeps_red_means_stopped w ev :
  reachable w -> fresh w ev = true ->
  red_means_stopped (app w) -> red_means_stopped (app (handle w ev)).
Proof.
  intros Hr Hf H.
  pose proof (fresh_reads_current_state w ev) as F.
  specialize (fun k r => F k r Hr Hf).
  unfold red_means_stopped in *.
  destruct ev;
    try (specialize (fun r => F k r eq_refl); unfold handle;
         destruct (rendered w k) as [rk|] eqn:Hk; [|exact H];
         rewrite (F rk eq_refl));
    clear F Hf; unfold_handlers.
  - run_effects; auto.
  - run_effects; auto.
  - run_effects; auto.
  - run_effects; auto.
  - destruct (negb (isNaN _) && negb (isNaN _)); run_effects; auto.
  - destruct hasGeolocation; run_effects; auto.
  - run_effects; auto.
  - run_effects; auto.
  - run_effects; auto.
  - run_effects; discriminate.
  - run_effects; auto.
  - run_effects; auto.
  - destruct (trafficState (app w)) eqn:Ht; run_effects; intros;
      congruence.
  - run_effects; auto.
  - destruct newState; destruct (trafficState (app w)) eqn:Ht;
      run_effects; intros; congruence.
  - destruct (status (app w)) eqn:Hs; run_effects; intros;
      try discriminate; auto.
  - destruct (timers w) as [|t ts]; [|destruct (timeout_targetPos t)];
      run_effects; auto.
  - destruct (targetPos (app w)); run_effects; discriminate.
  - run_effects; auto.
Qed.

Lemma fresh_run_keeps_red_means_stopped evs : forall w w',
  reachable w -> red_means_stopped (app w) ->
  fresh_run w evs = true -> run w evs = Some w' ->
  red_means_stopped (app w').
Proof.
  induction evs as [|ev evs IH]; intros w w' Hr H Hf Hrun;
    cbn [run fresh_run] in *.
  - now injection Hrun as <-.
  - apply andb_prop in Hf as [Hf1 Hf2].
    unfold step in Hrun. destruct (enabled w ev) eqn:Hen; [|discriminate].
    apply (IH (next w ev) w'); auto.
    + now apply reachable_next.
    + unfold next. rewrite app_commit.
      now apply fresh_keeps_red_means_stopped.
Qed.

(** C1: what the handlers do about a red signal, and where the invariant
    breaks.  A position tick whose handler reads a red signal sets the speed
    to 0, and a signal event that carries red sets the speed to 0, whatever
    the status and whichever render the callback comes from; and as long as
    every callback of the map is the one of the latest render, a red signal
    comes with speed 0 after every event.  But the tick reads the signal of
    the render it was created in: when the map calls the red signal event
    and then the tick of one and the same render, the signal stored is red
    and the speed is 60. *)
Theorem red_signal_then_stale_tick :
  (forall w k r pos rnd,
     rendered w k = Some r -> trafficState r = RED ->
     speed (app (handle w (PositionUpdate k pos rnd))) = 0%float)
  /\ (forall w k r st,
        rendered w k = Some r ->
        speed (app (handle w (TrafficSignalUpdate k RED st))) = 0%float
        /\ trafficState (app (handle w (TrafficSignalUpdate k RED st))) = RED)
  /\ (forall evs w',
        fresh_run initialWorld evs = true ->
        run initialWorld evs = Some w' ->
        trafficState (app w') = RED -> speed (app w') = 0%float)
  /\ (reachable enroutePatientWorld
      /\ run enroutePatientWorld
           [TrafficSignalUpdate 1 RED stamp0;
            PositionUpdate 1 patientPos 0.5%float]
         = Some redThenTickWorld
      /\ fresh_run enroutePatientWorld
           [TrafficSignalUpdate 1 RED stamp0;
            PositionUpdate 1 patientPos 0.5%float]
         = false
      /\ trafficState (app redWorld) = RED
      /\ speed (app redWorld) = 0%float
      /\ trafficState (app redThenTickWorld) = RED
      /\ speed (app redThenTickWorld) = 60%float).
Proof.
  split; [|split; [|split]].
  - intros w k r pos rnd Hk Hred. unfold_handlers. rewrite Hk, Hred.
    run_effects. reflexivity.
  - intros w k r st Hk. unfold_handlers. rewrite Hk. run_effects. auto.
  - intros evs w' Hf Hrun.
    apply (fresh_run_keeps_red_means_stopped evs initialWorld w');
      [exact reachable_init|intros _; reflexivity|exact Hf|exact Hrun].
  - split; [exact enroutePatientWorld_reachable|].
    do 5 (split; [vm_compute; reflexivity|]). vm_compute. reflexivity.
Qed.

(** ** Arrival and begin of transport *)

(** C2: what an arrival does, and where the guard lets a second one
    through.  An arrival whose handler reads ENROUTE_PATIENT moves the
    mission to AT_PATIENT, stops the vehicle, turns the signal yellow,
    appends one log entry and opens the transport confirmation; one whose
    handler reads neither enroute status changes nothing.  But the handler
    reads the status of the render it was created in: when the map calls
    the arrival of one and the same render twice, the second call finds the
    mission AT_PATIENT and still runs the transition, and the entry is
    logged twice. *)
Theorem repeated_arrival_fires_again :
  (forall w k r st,
     rendered w k = Some r -> status r = ENROUTE_PATIENT ->
     let w1 := handle w (Arrival k st) in
     status (app w1) = AT_PATIENT
     /\ speed (app w1) = 0%float
     /\ trafficState (app w1) = YELLOW
     /\ logs (app w1) = (logs (app w) ++ [arrivalLog st])%list
     /\ showTransModal (app w1) = true
     /\ timers w1 = timers w)
  /\ (forall w k r st,
        rendered w k = Some r ->
        status r <> ENROUTE_PATIENT -> status r <> ENROUTE_HOSPITAL ->
        handle w (Arrival k st) = w)
  /\ (forall w st,
        reachable w -> view (app w) = MAP_NAVIGATION ->
        status (app w) <> ENROUTE_PATIENT ->
        status (app w) <> ENROUTE_HOSPITAL ->
        handle w (Arrival (latest w) st) = w)
  /\ (reachable enroutePatientWorld
      /\ run enroutePatientWorld [Arrival 1 stamp0; Arrival 1 stamp0]
         = Some (arrivals enroutePatientWorld 1 [stamp0; stamp0])
      /\ status (app (arrivals enroutePatientWorld 1 [stamp0])) = AT_PATIENT
      /\ logs (app (arrivals enroutePatientWorld 1 [stamp0]))
         = (logs (app enroutePatientWorld) ++ [arrivalLog stamp0])%list
      /\ logs (app (arrivals enroutePatientWorld 1 [stamp0; stamp0]))
         = (logs (app enroutePatientWorld)
            ++ [arrivalLog stamp0; arrivalLog stamp0])%list).
Proof.
  assert (Ignored : forall w k r st,
            rendered w k = Some r ->
            status r <> ENROUTE_PATIENT -> status r <> ENROUTE_HOSPITAL ->
            handle w (Arrival k st) = w).
  { intros w k r st Hk Hp Hh. unfold_handlers. rewrite Hk.
    destruct (status r); try reflexivity; congruence. }
  split; [|split; [|split]].
  - intros w k r st Hk Hs w1. subst w1. unfold_handlers. rewrite Hk, Hs.
    run_effects. repeat split.
  - exact Ignored.
  - intros w st Hr Hv Hp Hh.
    destruct (reachable_map_view_inv w Hr) as [Hl _].
    exact (Ignored w (latest w) (app w) st (Hl Hv) Hp Hh).
  - split; [exact enroutePatientWorld_reachable|].
    do 3 (split; [vm_compute; reflexivity|]). vm_compute. reflexivity.
Qed.

(** C3: begin-transport with a target set moves the ambulance to that
    target, makes the hospital the new target, sets the status to
    ENROUTE_HOSPITAL and the signal to green, and appends the reroute entry
    followed by the high-speed-protocol entry. *)
Theorem begin_transport_reroutes_to_hospital w p st1 st2 :
  targetPos (app w) = Some p ->
  let w' := handle w (TransportToHospital st1 st2) in
  ambulancePos (app w') = p
  /\ targetPos (app w') = Some HOSPITAL_LOC
  /\ HOSPITAL_LOC = {| lat := 40.789125%float; lng := (-73.954605)%float |}
  /\ status (app w') = ENROUTE_HOSPITAL
  /\ trafficState (app w') = GREEN
  /\ logs (app w') =
       (logs (app w) ++
        [{| AILog.id := stamp_id st1; AILog.timestamp := stamp_time st1;
            AILog.message := "Patient secured. Rerouting to Trauma Center.";
            AILog.type := warning |};
         {| AILog.id := stamp_id st2; AILog.timestamp := stamp_time st2;
            AILog.message := "High Speed Protocol Engaged. Signals Syncing...";
            AILog.type := success |}])%list.
Proof.
  intros Ht w'. subst w'. unfold_handlers. rewrite Ht. run_effects.
  rewrite <- app_assoc. repeat split.
Qed.

(** ** Start of a mission and the analysis call *)

Lemma next_keeps_awaiting_analysis w ev :
  awaiting_analysis w -> is_AnalysisResolved ev = false ->
  enabled w ev = true -> awaiting_analysis (next w ev).
Proof.
  unfold awaiting_analysis. intros (Hs & Hm & Hr) Hev Hen.
  assert (A : (status (app (handle w ev)) = IDLE
               \/ status (app (handle w ev)) = CALCULATING)
              /\ showTransModal (app (handle w ev)) = false).
  { each_event w ev; try (simpl in Hev; discriminate Hev); auto;
      try (simpl in Hen; rewrite Hm in Hen;
           destruct (view (app w)); discriminate Hen);
      match goal with
      | Hk : rendered w _ = Some ?rk |- _ =>
          pose proof (Forall_rendered _ _ _ _ Hr Hk) as Hrk; cbv beta in Hrk;
          destruct Hrk; congruence
      end. }
  destruct A as [A1 A2]. commit_simpl. repeat split; [exact A1|exact A2|].
  apply Forall_renders_commit; [exact A1|]. now rewrite renders_handle.
Qed.

Lemma run_keeps_awaiting_analysis evs : forall w w',
  awaiting_analysis w ->
  forallb (fun ev => negb (is_AnalysisResolved ev)) evs = true ->
  run w evs = Some w' -> awaiting_analysis w'.
Proof.
  induction evs as [|ev evs IH]; intros w w' Hw Hevs Hrun; simpl in *.
  - now injection Hrun as <-.
  - apply andb_prop in Hevs as [Hev Hevs].
    unfold step in Hrun. destruct (enabled w ev) eqn:Hen; [|discriminate].
    apply (IH (next w ev) w'); auto.
    apply next_keeps_awaiting_analysis; auto.
    now destruct (is_AnalysisResolved ev).
Qed.

(** C4, as the code has it: start-mission leaves the status at CALCULATING
    with the analysis call pending and the signal untouched; the only event
    that moves a mission into ENROUTE_PATIENT is the resolution of that call,
    whose continuation appends the analysis entry, sets ENROUTE_PATIENT and
    GREEN_CORRIDOR_ACTIVE, and appends the protocol-activation entry. *)
Theorem start_mission_resumes_when_analysis_resolves :
  (forall w rnd1 rnd2 st,
     let w1 := handle w (StartMission rnd1 rnd2 st) in
     status (app w1) = CALCULATING
     /\ trafficState (app w1) = trafficState (app w)
     /\ analysisCalls w1 =
          (analysisCalls w ++
           [{| call_type := EmergencyDetails.type (emergency (app w));
               call_severity := EmergencyDetails.severity (emergency (app w));
               call_traffic := "Heavy Congestion" |}])%list)
  /\ (forall w ev w',
        step w ev = Some w' ->
        status (app w) <> ENROUTE_PATIENT ->
        status (app w') = ENROUTE_PATIENT ->
        is_AnalysisResolved ev = true)
  /\ (forall w aiAnalysis st1 st2,
        let w' := handle w (AnalysisResolved aiAnalysis st1 st2) in
        status (app w') = ENROUTE_PATIENT
        /\ trafficState (app w') = GREEN_CORRIDOR_ACTIVE
        /\ analysisCalls w' = tl (analysisCalls w)
        /\ logs (app w') =
             (logs (app w) ++
              [{| AILog.id := stamp_id st1; AILog.timestamp := stamp_time st1;
                  AILog.message := aiAnalysis; AILog.type := analysis |};
               {| AILog.id := stamp_id st2; AILog.timestamp := stamp_time st2;
                  AILog.message :=
                    "GREEN CORRIDOR PROTOCOL: ACTIVE. All signals preempted.";
                  AILog.type := success |}])%list).
Proof.
  split; [|split].
  - intros w rnd1 rnd2 st w1. subst w1. unfold_handlers. run_effects.
    repeat split.
  - intros w ev w' Hstep Hs Hs'. unfold step in Hstep.
    destruct (enabled w ev); [|discriminate]. injection Hstep as <-.
    commit_simpl.
    destruct (is_AnalysisResolved ev) eqn:Hev; [reflexivity|exfalso].
    revert Hs'. each_event w ev; try (simpl in Hev; discriminate Hev);
      auto; discriminate.
  - intros w a st1 st2 w'. subst w'. unfold_handlers. run_effects.
    rewrite <- app_assoc. repeat split.
Qed.

(** C4, as the claim has it, fails: after start-mission the status is
    CALCULATING and the signal is still red, and no run of events in which
    no analysis resolves brings the mission to ENROUTE_PATIENT. *)
Lemma start_mission_blocks_on_analysis :
  status (app calculatingWorld) = CALCULATING
  /\ trafficState (app calculatingWorld) = RED
  /\ List.length (analysisCalls calculatingWorld) = 1%nat
  /\ (forall evs w',
        forallb (fun ev => negb (is_AnalysisResolved ev)) evs = true ->
        run calculatingWorld evs = Some w' ->
        status (app w') <> ENROUTE_PATIENT).
Proof.
  split; [|split; [|split]]; [vm_compute; reflexivity ..|].
  intros evs w' Hevs Hrun.
  assert (H0 : awaiting_analysis calculatingWorld).
  { split; [right; vm_compute; reflexivity|].
    split; [vm_compute; reflexivity|].
    change (renders calculatingWorld) with [app calculatingWorld].
    constructor; [right; vm_compute; reflexivity|constructor]. }
  destruct (run_keeps_awaiting_analysis evs _ _ H0 Hevs Hrun) as [[H|H] _];
    rewrite H; discriminate.
Qed.

(** ** End of a mission *)

Lemma next_keeps_mission_end_inv w ev :
  mission_end_inv w -> mission_end_inv (next w ev).
Proof.
  unfold mission_end_inv, hospital_leg_targets_hospital.
  intros (Ht & Hr & Hf & Hc).
  assert (A : (status (app (handle w ev)) = ENROUTE_HOSPITAL ->
               targetPos (app (handle w ev)) = Some HOSPITAL_LOC)
              /\ Forall (fun t => t = hospitalTimeout) (timers (handle w ev))
              /\ (status (app (handle w ev)) = COMPLETED ->
                  timers (handle w ev) <> [])).
  { each_event w ev;
      try match goal with
        | Hk : rendered w _ = Some ?rk, Hs : status ?rk = ENROUTE_HOSPITAL
          |- _ =>
            pose proof (Forall_rendered _ _ _ _ Hr Hk Hs) as Hrk; rewrite Hrk
        end;
      try match goal with
        | E : timers w = _ |- _ => rewrite E in *
        end;
      repeat split; auto; try discriminate; try congruence;
      try (intros _; now destruct (timers w));
      try (apply Forall_app; split; [assumption|];
           constructor; [reflexivity|constructor]);
      try (apply Forall_inv_tail in Hf; exact Hf). }
  destruct A as (A1 & A2 & A3). commit_simpl.
  repeat split; try assumption.
  apply (Forall_renders_commit (fun s => status s = ENROUTE_HOSPITAL ->
                                         targetPos s = Some HOSPITAL_LOC));
    [exact A1|]. now rewrite renders_handle.
Qed.

Lemma reachable_mission_end_inv w : reachable w -> mission_end_inv w.
Proof.
  apply reachable_next_ind.
  - repeat split; try discriminate; constructor.
  - intros w0 ev _ IH _. now apply next_keeps_mission_end_inv.
Qed.

(** C5: an arrival on the hospital leg completes the mission and sets the
    timer of 1000 ms that holds the hospital as its target, whether it is
    the arrival of the current render or of an earlier one on that leg; a
    completed mission always has that timer pending, and when it fires the
    status is IDLE, the target is cleared, distance and ETA show their
    placeholders and the ambulance stands at the hospital. *)
Theorem completed_mission_resets_to_idle :
  (forall w st,
     reachable w -> status (app w) = ENROUTE_HOSPITAL ->
     targetPos (app w) = Some HOSPITAL_LOC
     /\ rendered w (latest w) = Some (app w)
     /\ status (app (handle w (Arrival (latest w) st))) = COMPLETED
     /\ timers (handle w (Arrival (latest w) st))
        = (timers w ++ [hospitalTimeout])%list)
  /\ (forall w k r st,
        reachable w -> rendered w k = Some r -> status r = ENROUTE_HOSPITAL ->
        status (app (handle w (Arrival k st))) = COMPLETED
        /\ timers (handle w (Arrival k st))
           = (timers w ++ [hospitalTimeout])%list)
  /\ (forall w,
        reachable w -> status (app w) = COMPLETED ->
        enabled w TimeoutFired = true
        /\ hd_error (timers w) = Some hospitalTimeout
        /\ timeout_delay hospitalTimeout = 1000
        /\ status (app (handle w TimeoutFired)) = IDLE
        /\ targetPos (app (handle w TimeoutFired)) = None
        /\ distance (app (handle w TimeoutFired)) = "0.0 km"
        /\ eta (app (handle w TimeoutFired)) = "--:--"
        /\ ambulancePos (app (handle w TimeoutFired)) = HOSPITAL_LOC).
Proof.
  assert (Stale : forall w k r st,
            reachable w -> rendered w k = Some r ->
            status r = ENROUTE_HOSPITAL ->
            status (app (handle w (Arrival k st))) = COMPLETED
            /\ timers (handle w (Arrival k st))
               = (timers w ++ [hospitalTimeout])%list).
  { intros w k r st Hr Hk Hs.
    destruct (reachable_mission_end_inv w Hr) as (_ & Hrs & _ & _).
    pose proof (Forall_rendered _ _ _ _ Hrs Hk Hs) as Ht.
    unfold_handlers. rewrite Hk, Hs, Ht. run_effects. split; reflexivity. }
  split; [|split].
  - intros w st Hr Hs.
    destruct (reachable_mission_end_inv w Hr) as (Ht & _ & _ & _).
    destruct (reachable_map_view_inv w Hr) as (Hl & Hv).
    specialize (Hl (Hv Hs)).
    destruct (Stale w (latest w) (app w) st Hr Hl Hs) as [S1 S2].
    split; [exact (Ht Hs)|]. split; [exact Hl|]. split; assumption.
  - exact Stale.
  - intros w Hr Hs.
    destruct (reachable_mission_end_inv w Hr) as (_ & _ & Hf & Hc).
    specialize (Hc Hs). unfold enabled.
    destruct (timers w) as [|t ts] eqn:E; [congruence|].
    pose proof (Forall_inv Hf) as Heq. simpl in Heq. subst t.
    unfold_handlers. rewrite E.
    change (timeout_targetPos hospitalTimeout) with (Some HOSPITAL_LOC).
    run_effects. repeat split.
Qed.

Lemma transport_starts_hospital_leg w st1 st2 :
  status (app (next w (TransportToHospital st1 st2))) = ENROUTE_HOSPITAL
  /\ (forall p, targetPos (app w) = Some p ->
                ambulancePos (app (next w (TransportToHospital st1 st2))) = p).
Proof.
  commit_simpl. unfold_handlers. destruct (targetPos (app w)); run_effects.
  - split; [reflexivity|]. intros p [= ->]. reflexivity.
  - split; [reflexivity|]. discriminate.
Qed.

Lemma hospital_arrival_completes w k r st :
  rendered w k = Some r -> status r = ENROUTE_HOSPITAL ->
  targetPos r = Some HOSPITAL_LOC ->
  timers (next w (Arrival k st)) = (timers w ++ [hospitalTimeout])%list
  /\ status (app (next w (Arrival k st))) = COMPLETED.
Proof.
  intros Hk Hs Ht. commit_simpl. unfold_handlers. rewrite Hk, Hs, Ht.
  run_effects. split; reflexivity.
Qed.

Lemma hospital_timeout_resets w ts :
  timers w = hospitalTimeout :: ts ->
  status (app (next w TimeoutFired)) = IDLE
  /\ ambulancePos (app (next w TimeoutFired)) = HOSPITAL_LOC
  /\ targetPos (app (next w TimeoutFired)) = None.
Proof.
  intros Ht. commit_simpl. unfold_handlers. rewrite Ht.
  change (timeout_targetPos hospitalTimeout) with (Some HOSPITAL_LOC).
  run_effects. repeat split.
Qed.

(** C6, as the code has it: after the patient is picked up, the arrival at
    the hospital (the one of any render on the hospital leg) and the reset
    that follows leave the ambulance at the hospital, whatever the pickup
    point was, and clear the target. *)
Theorem reset_puts_ambulance_at_hospital w st1 st2 st3 k r :
  reachable w ->
  let w1 := next w (TransportToHospital st1 st2) in
  rendered w1 k = Some r -> status r = ENROUTE_HOSPITAL ->
  let w2 := next w1 (Arrival k st3) in
  let w3 := next w2 TimeoutFired in
  (forall p, targetPos (app w) = Some p -> ambulancePos (app w1) = p)
  /\ status (app w1) = ENROUTE_HOSPITAL
  /\ (enabled w (TransportToHospital st1 st2) = true ->
      rendered w1 (latest w1) = Some (app w1))
  /\ status (app w2) = COMPLETED
  /\ status (app w3) = IDLE
  /\ ambulancePos (app w3) = HOSPITAL_LOC
  /\ targetPos (app w3) = None.
Proof.
  intros Hr. cbv zeta. intros Hk Hs.
  pose proof (next_keeps_mission_end_inv w (TransportToHospital st1 st2)
                (reachable_mission_end_inv w Hr)) as (_ & Hrs1 & Hf1 & _).
  pose proof (Forall_rendered _ _ _ _ Hrs1 Hk Hs) as Htr.
  destruct (transport_starts_hospital_leg w st1 st2) as (Hs1 & Ha1).
  destruct (hospital_arrival_completes _ k r st3 Hk Hs Htr) as (Ht2 & Hs2).
  assert (Hts : exists ts,
            timers (next (next w (TransportToHospital st1 st2))
                      (Arrival k st3)) = hospitalTimeout :: ts).
  { rewrite Ht2.
    destruct (timers (next w (TransportToHospital st1 st2))) as [|t ts].
    - now exists [].
    - pose proof (Forall_inv Hf1) as Heq. simpl in Heq. subst t.
      now eexists. }
  destruct Hts as [ts Hts].
  destruct (hospital_timeout_resets _ ts Hts) as (Hs3 & Ha3 & Hp3).
  split; [exact Ha1|]. split; [exact Hs1|]. split.
  { intros Hen.
    destruct (reachable_map_view_inv _ (reachable_next w _ Hr Hen))
      as (Hl & Hv).
    exact (Hl (Hv Hs1)). }
  split; [exact Hs2|]. split; [exact Hs3|]. split; [exact Ha3|exact Hp3].
Qed.

(** C6, as the claim has it, fails: in the mission above the patient is
    found at [patientPos], and the reset leaves the ambulance at the
    hospital, which is another place. *)
Lemma reset_position_is_not_the_pickup_point :
  targetPos (app enroutePatientWorld) = Some patientPos
  /\ ambulancePos (app enrouteHospitalWorld) = patientPos
  /\ status (app completedWorld) = COMPLETED
  /\ status (app resetWorld) = IDLE
  /\ targetPos (app resetWorld) = None
  /\ ambulancePos (app resetWorld) = HOSPITAL_LOC
  /\ ambulancePos (app resetWorld) <> patientPos.
Proof.
  do 6 (split; [vm_compute; reflexivity|]).
  intros H.
  apply (f_equal (fun c => PrimFloat.eqb (lat c) (lat patientPos))) in H.
  vm_compute in H. discriminate.
Qed.

(** ** Abort *)

(** C7: what the abort button does, and what it leaves behind.  Its
    handler sets the view to DASHBOARD and the status to IDLE and nothing
    else: every other state variable and all pending work are as before.
    Aborting the mission under way leaves its target set and the HUD at
    60 and "1.23 km", where the reset at the end of a mission clears the
    target and restores the placeholders.  And the button is only in the map
    view: a mission that is ENROUTE_PATIENT in the dashboard view (aborted
    while the analysis was pending, which then resolved) cannot be
    aborted. *)
Theorem abort_only_sets_view_and_status :
  (forall w,
     handle w AbortMission =
     {| app := {| view := DASHBOARD;
                  status := IDLE;
                  ambulancePos := ambulancePos (app w);
                  targetPos := targetPos (app w);
                  emergency := emergency (app w);
                  logs := logs (app w);
                  speed := speed (app w);
                  distance := distance (app w);
                  eta := eta (app w);
                  trafficState := trafficState (app w);
                  showTransModal := showTransModal (app w);
                  manualLat := manualLat (app w);
                  manualLng := manualLng (app w) |};
        renders := renders w;
        timers := timers w;
        analysisCalls := analysisCalls w;
        geoRequests := geoRequests w;
        alerts := alerts w |})
  /\ (reachable drivingWorld
      /\ step drivingWorld AbortMission = Some (next drivingWorld AbortMission)
      /\ status (app (next drivingWorld AbortMission)) = IDLE
      /\ targetPos (app (next drivingWorld AbortMission)) = Some patientPos
      /\ speed (app (next drivingWorld AbortMission)) = 60%float
      /\ distance (app (next drivingWorld AbortMission)) = "1.23 km"
      /\ targetPos (app resetWorld) = None
      /\ distance (app resetWorld) = "0.0 km"
      /\ eta (app resetWorld) = "--:--")
  /\ (run initialWorld
        [Login stamp0; StartMission 0.25%float 0.75%float stamp0; AbortMission;
         AnalysisResolved "Critical cardiac case: priority corridor advised."
           stamp0 stamp0]
      = Some abortedThenResolvedWorld
      /\ status (app abortedThenResolvedWorld) = ENROUTE_PATIENT
      /\ step abortedThenResolvedWorld AbortMission = None).
Proof.
  split; [|split].
  - intros w. unfold_handlers. run_effects. reflexivity.
  - split.
    { apply (reachable_run
               [PositionUpdate 1 {| lat := BASE_LAT; lng := BASE_LNG |}
                  0.5%float;
                DistanceUpdate 1234%float] enroutePatientWorld).
      - exact enroutePatientWorld_reachable.
      - vm_compute. reflexivity. }
    do 7 (split; [vm_compute; reflexivity|]). vm_compute. reflexivity.
  - do 2 (split; [vm_compute; reflexivity|]). vm_compute. reflexivity.
Qed.

(** ** Traffic signals *)

(** C8: what a traffic signal event does, and where the override is
    logged again.  The event stores the new state and leaves the status
    alone; red forces the speed to 0 and appends the braking warning; the
    green corridor appends the override entry when the handler reads red or
    yellow, and nothing when it reads green or the corridor; yellow and
    green append nothing.  But the handler reads the signal of the render
    it was created in, not the one stored: when the map calls the event of
    the render under red twice with the green corridor, the second call
    finds the corridor stored and logs the override once more, with no red
    or yellow in between. *)
Theorem repeated_corridor_logs_override_again :
  (forall w k r newState st,
     rendered w k = Some r ->
     let w' := handle w (TrafficSignalUpdate k newState st) in
     trafficState (app w') = newState
     /\ status (app w') = status (app w)
     /\ (newState = RED ->
         speed (app w') = 0%float
         /\ logs (app w') = (logs (app w) ++ [brakingLog st])%list)
     /\ (newState = GREEN_CORRIDOR_ACTIVE ->
         trafficState r = RED \/ trafficState r = YELLOW ->
         logs (app w') = (logs (app w) ++ [overrideLog st])%list
         /\ speed (app w') = speed (app w))
     /\ (newState = GREEN_CORRIDOR_ACTIVE ->
         trafficState r = GREEN \/ trafficState r = GREEN_CORRIDOR_ACTIVE ->
         logs (app w') = logs (app w) /\ speed (app w') = speed (app w))
     /\ (newState = YELLOW \/ newState = GREEN ->
         logs (app w') = logs (app w) /\ speed (app w') = speed (app w)))
  /\ (forall w st,
        reachable w -> view (app w) = MAP_NAVIGATION ->
        trafficState (app w) = GREEN_CORRIDOR_ACTIVE ->
        logs (app (handle w (TrafficSignalUpdate (latest w)
                               GREEN_CORRIDOR_ACTIVE st)))
        = logs (app w))
  /\ (reachable enroutePatientWorld
      /\ run enroutePatientWorld
           [TrafficSignalUpdate 1 RED stamp0;
            TrafficSignalUpdate 2 GREEN_CORRIDOR_ACTIVE stamp0;
            TrafficSignalUpdate 2 GREEN_CORRIDOR_ACTIVE stamp0]
         = Some corridorTwiceWorld
      /\ trafficState
           (app (next redWorld
                   (TrafficSignalUpdate 2 GREEN_CORRIDOR_ACTIVE stamp0)))
         = GREEN_CORRIDOR_ACTIVE
      /\ logs (app corridorTwiceWorld)
         = (logs (app enroutePatientWorld)
            ++ [brakingLog stamp0; overrideLog stamp0; overrideLog stamp0])%list).
Proof.
  split; [|split].
  - intros w k r newState st Hk w'. subst w'.
    destruct newState; destruct (trafficState r) eqn:Ht;
      unfold_handlers; rewrite Hk, ?Ht; run_effects;
      repeat split; intros;
      repeat match goal with H : _ \/ _ |- _ => destruct H end;
      try discriminate; try congruence; auto.
  - intros w st Hr Hv Ht.
    destruct (reachable_map_view_inv w Hr) as [Hl _].
    unfold_handlers. rewrite (Hl Hv), Ht. run_effects. reflexivity.
  - split; [exact enroutePatientWorld_reachable|].
    do 2 (split; [vm_compute; reflexivity|]). vm_compute. reflexivity.
Qed.

(** ** Manual location *)

(** C10: when either input does not parse to a number, set-manual-location
    appends one warning entry and changes nothing else, the position
    included; otherwise the position becomes the parsed pair. *)
Theorem manual_location_rejects_non_numbers w st :
  let lat := parseFloat (manualLat (app w)) in
  let lng := parseFloat (manualLng (app w)) in
  let w' := handle w (ManualLocation st) in
  (isNaN lat = true \/ isNaN lng = true ->
     ambulancePos (app w') = ambulancePos (app w)
     /\ w' = setLogs (fun prev => (prev ++ [invalidCoordinatesLog st])%list) w
     /\ logs (app w') = (logs (app w) ++ [invalidCoordinatesLog st])%list)
  /\ (isNaN lat = false /\ isNaN lng = false ->
      ambulancePos (app w') = {| lat := lat; lng := lng |}).
Proof.
  intros la ln w'. subst w'. unfold_handlers. fold la ln.
  split.
  - intros [H|H]; rewrite H; rewrite ?andb_false_r; cbn [negb andb];
      run_effects; repeat split.
  - intros [H1 H2]. rewrite H1, H2. cbn [negb andb]. run_effects. reflexivity.
Qed.

(** ** Rounding of binary64 arithmetic *)

Lemma digits2_pos_log2 p : Z.pos (digits2_pos p) = Z.log2 (Z.pos p) + 1.
Proof.
  assert (H : forall q, digits2_pos q = Pos.size q).
  { induction q; simpl; congruence. }
  rewrite H. destruct p; simpl; lia.
Qed.

Lemma digits2_pos_bounds p :
  2 ^ (Z.pos (digits2_pos p) - 1) <= Z.pos p < 2 ^ Z.pos (digits2_pos p).
Proof.
  rewrite digits2_pos_log2.
  replace (Z.log2 (Z.pos p) + 1 - 1) with (Z.log2 (Z.pos p)) by lia.
  apply Z.log2_spec. lia.
Qed.

(** The digits of a positive integer below [2 ^ k] are at most [k]. *)
Lemma digits2_pos_le p k : 0 <= k -> Z.pos p < 2 ^ k -> Z.pos (digits2_pos p) <= k.
Proof.
  intros Hk Hp. rewrite digits2_pos_log2.
  apply (Z.log2_lt_pow2 (Z.pos p) k) in Hp; lia.
Qed.

Lemma digits2_pos_ge p k : 0 <= k -> 2 ^ k <= Z.pos p -> k < Z.pos (digits2_pos p).
Proof.
  intros Hk Hp. rewrite digits2_pos_log2.
  apply Z.log2_le_pow2 in Hp; lia.
Qed.

Lemma iter_pos_nat {A : Type} (f : A -> A) p : forall x,
  iter_pos f p x = Nat.iter (Pos.to_nat p) f x.
Proof.
  induction p as [p IH|p IH|]; intros x; cbn [iter_pos].
  - rewrite !IH, Pos2Nat.inj_xI.
    replace (S (2 * Pos.to_nat p)) with (Pos.to_nat p + (Pos.to_nat p + 1))%nat by lia.
    rewrite !Nat.iter_add. reflexivity.
  - rewrite !IH, Pos2Nat.inj_xO.
    replace (2 * Pos.to_nat p)%nat with (Pos.to_nat p + Pos.to_nat p)%nat by lia.
    rewrite Nat.iter_add. reflexivity.
  - reflexivity.
Qed.

Lemma shr_1_spec m r s :
  0 <= m ->
  shr_m (shr_1 (Build_shr_record m r s)) = m / 2
  /\ shr_r (shr_1 (Build_shr_record m r s)) = Z.odd m
  /\ shr_s (shr_1 (Build_shr_record m r s)) = (r || s)%bool.
Proof.
  intros Hm. destruct m as [|p|p]; [| |lia].
  - simpl. auto.
  - destruct p as [p|p|]; simpl; repeat split.
    + rewrite Pos2Z.inj_xI. apply (Z.div_unique _ _ _ 1); lia.
    + rewrite Pos2Z.inj_xO. apply (Z.div_unique _ _ _ 0); lia.
Qed.

(** [k] steps of [shr_1] divide by [2 ^ k]; both flags stay down when the
    division is exact. *)
Lemma iter_shr_1_spec k m :
  0 <= m ->
  shr_m (Nat.iter k shr_1 (Build_shr_record m false false)) = m / 2 ^ Z.of_nat k
  /\ (m mod 2 ^ Z.of_nat k = 0 ->
      shr_r (Nat.iter k shr_1 (Build_shr_record m false false)) = false
      /\ shr_s (Nat.iter k shr_1 (Build_shr_record m false false)) = false).
Proof.
  intros Hm. induction k as [|k IH].
  - simpl. rewrite Z.div_1_r. auto.
  - rewrite Nat.iter_succ. destruct IH as [IHm IHf].
    destruct (Nat.iter k shr_1 (Build_shr_record m false false)) as [mk r s].
    cbn [shr_m shr_r shr_s] in IHm, IHf.
    assert (Hpow : 0 < 2 ^ Z.of_nat k) by (apply Z.pow_pos_nonneg; lia).
    assert (Hmk : 0 <= mk) by (subst mk; apply Z.div_pos; lia).
    destruct (shr_1_spec mk r s Hmk) as (H1 & H2 & H3).
    rewrite H1, H2, H3, Nat2Z.inj_succ, Z.pow_succ_r by lia.
    split.
    + subst mk. rewrite Z.div_div by lia. f_equal. lia.
    + intros Hmod.
      assert (Hex : exists q, m = q * (2 * 2 ^ Z.of_nat k)).
      { exists (m / (2 * 2 ^ Z.of_nat k)).
        rewrite Z.mul_comm. apply Z.div_exact; lia. }
      destruct Hex as [q Hq].
      assert (Hmod' : m mod 2 ^ Z.of_nat k = 0).
      { rewrite Hq. replace (q * (2 * 2 ^ Z.of_nat k)) with (q * 2 * 2 ^ Z.of_nat k) by lia.
        apply Z.mod_mul. lia. }
      destruct (IHf Hmod') as [-> ->]. split; [|reflexivity].
      subst mk. rewrite Hq.
      replace (q * (2 * 2 ^ Z.of_nat k)) with (q * 2 * 2 ^ Z.of_nat k) by lia.
      rewrite Z.div_mul by lia. rewrite Z.mul_comm, Z.odd_mul. reflexivity.
Qed.

(** [shr] from an exact mantissa [0 <= m]. *)
Lemma shr_exact_spec m e n :
  0 <= m ->
  shr_m (fst (shr (Build_shr_record m false false) e n)) = m / 2 ^ Z.max n 0
  /\ snd (shr (Build_shr_record m false false) e n) = e + Z.max n 0
  /\ (m mod 2 ^ Z.max n 0 = 0 ->
      loc_of_shr_record (fst (shr (Build_shr_record m false false) e n)) = loc_Exact).
Proof.
  intros Hm. unfold shr. destruct n as [|p|p]; cbn [fst snd shr_m].
  - simpl. rewrite Z.div_1_r. repeat split; lia.
  - rewrite Z.max_l by lia. rewrite iter_pos_nat.
    destruct (iter_shr_1_spec (Pos.to_nat p) m Hm) as [H1 H2].
    rewrite positive_nat_Z in H1, H2. repeat split; auto.
    intros Hmod. destruct (H2 Hmod) as [Hr Hs].
    destruct (Nat.iter (Pos.to_nat p) shr_1 _) as [m' r s]. simpl in *.
    subst. reflexivity.
  - rewrite Z.max_r by lia. simpl. rewrite Z.div_1_r.
    repeat split; lia.
Qed.

Lemma round_nearest_even_range m l :
  m <= round_nearest_even m l <= m + 1
  /\ (l = loc_Exact -> round_nearest_even m l = m).
Proof.
  destruct l as [|[| |]]; simpl.
  - split; [lia|auto].
  - destruct (Z.even m); split; try lia; discriminate.
  - split; [lia|discriminate].
  - split; [lia|discriminate].
Qed.

Lemma fexp_spec e : fexp prec emax e = Z.max (e - 53) (-1074).
Proof. reflexivity. Qed.

(** The result of rounding the exact value [mx * 2 ^ ex] to the exponent
    [f] of its binade: an integer [m2] next to the quotient of [mx] by
    [2 ^ (f - ex)], equal to it when the division is exact, with
    [m2 * 2 ^ f] the value of the result. *)
Lemma binary_round_aux_value sx mx ex :
  let f := fexp prec emax (Z.pos (digits2_pos mx) + ex) in
  ex <= f ->
  exists m2,
    Z.pos mx / 2 ^ (f - ex) <= m2 <= Z.pos mx / 2 ^ (f - ex) + 1
    /\ (Z.pos mx mod 2 ^ (f - ex) = 0 -> m2 = Z.pos mx / 2 ^ (f - ex))
    /\ match binary_round_aux prec emax sx (Z.pos mx) ex loc_Exact with
       | S754_zero s => s = sx /\ m2 = 0
       | S754_finite s m e =>
           s = sx /\ f <= e <= f + 1 /\ Z.pos m * 2 ^ (e - f) = m2
       | S754_infinity s =>
           s = sx /\ exists m e,
             emax - prec < e /\ f <= e /\ Z.pos m * 2 ^ (e - f) = m2
       | S754_nan => False
       end.
Proof.
  intros f Hf.
  pose proof (digits2_pos_bounds mx) as Hd.
  assert (Hfd : Z.pos (digits2_pos mx) + ex - 53 <= f /\ -1074 <= f).
  { subst f. rewrite fexp_spec. lia. }
  unfold binary_round_aux, shr_fexp.
  change (shr_record_of_loc (Z.pos mx) loc_Exact)
    with (Build_shr_record (Z.pos mx) false false).
  change (Zdigits2 (Z.pos mx)) with (Z.pos (digits2_pos mx)). fold f.
  destruct (shr_exact_spec (Z.pos mx) ex (f - ex) ltac:(lia)) as (H1 & H2 & H3).
  rewrite Z.max_l in H1, H2, H3 by lia.
  destruct (shr (Build_shr_record (Z.pos mx) false false) ex (f - ex))
    as [mrs' e'].
  cbn [fst snd] in H1, H2, H3.
  assert (He' : e' = f) by lia. clear H2. subst e'.
  set (m1 := Z.pos mx / 2 ^ (f - ex)) in *.
  assert (Hpow : 0 < 2 ^ (f - ex)) by (apply Z.pow_pos_nonneg; lia).
  assert (Hm1 : 0 <= m1 < 2 ^ 53).
  { split; [apply Z.div_pos; lia|].
    apply Z.div_lt_upper_bound; [lia|].
    rewrite <- Z.pow_add_r by lia.
    apply Z.lt_le_trans with (2 ^ Z.pos (digits2_pos mx)); [lia|].
    apply Z.pow_le_mono_r; lia. }
  destruct (round_nearest_even_range (shr_m mrs') (loc_of_shr_record mrs'))
    as [Hr1 Hr2].
  rewrite H1 in Hr1, Hr2 |- *.
  set (m2 := round_nearest_even m1 (loc_of_shr_record mrs')) in *.
  exists m2. split; [exact Hr1|]. split; [intros Hmod; apply Hr2, H3, Hmod|].
  change (shr_record_of_loc m2 loc_Exact) with (Build_shr_record m2 false false).
  destruct (shr_exact_spec m2 f (fexp prec emax (Zdigits2 m2 + f) - f) ltac:(lia))
    as (G1 & G2 & _).
  destruct (shr (Build_shr_record m2 false false) f
              (fexp prec emax (Zdigits2 m2 + f) - f)) as [mrs'' e''].
  cbn [fst snd] in G1, G2. rewrite G1.
  rewrite fexp_spec in G1, G2 |- *.
  destruct m2 as [|p2|p2] eqn:Em2; [| |lia].
  - (* the rounded mantissa is zero *)
    rewrite Z.div_0_l by (apply Z.pow_nonzero; lia). auto.
  - cbn [Zdigits2] in *.
    destruct (Z.eq_dec (Z.pos p2) (2 ^ 53)) as [Htop|Htop].
    + (* the mantissa was rounded up to the next binade *)
      assert (Hd2 : Z.pos (digits2_pos p2) = 54).
      { rewrite digits2_pos_log2, Htop, Z.log2_pow2; lia. }
      rewrite Hd2 in *.
      replace (Z.max (Z.max (54 + f - 53) (-1074) - f) 0) with 1 in * by lia.
      rewrite Htop. change (2 ^ 53 / 2 ^ 1) with (Z.pos (2 ^ 52)).
      cbv beta iota.
      destruct (e'' <=? emax - prec) eqn:Ee.
      * repeat split; try lia. subst e''.
        replace (f + 1 - f) with 1 by lia. reflexivity.
      * split; [reflexivity|]. exists (2 ^ 52)%positive, e''.
        apply Z.leb_gt in Ee. repeat split; try lia. subst e''.
        replace (f + 1 - f) with 1 by lia. reflexivity.
    + assert (Hd2 : Z.pos (digits2_pos p2) <= 53).
      { apply digits2_pos_le; lia. }
      replace (Z.max (Z.max (Z.pos (digits2_pos p2) + f - 53) (-1074) - f) 0)
        with 0 in * by lia.
      rewrite Z.div_1_r. cbv beta iota.
      destruct (e'' <=? emax - prec) eqn:Ee.
      * repeat split; try lia. subst e''.
        replace (f + 0 - f) with 0 by lia. lia.
      * split; [reflexivity|]. exists p2, e''.
        apply Z.leb_gt in Ee. repeat split; try lia. subst e''.
        replace (f + 0 - f) with 0 by lia. lia.
Qed.

(** Bounds that are multiples of [2 ^ f] pass through the rounding. *)
Lemma binary_round_aux_bounds sx mx ex lo hi :
  let f := fexp prec emax (Z.pos (digits2_pos mx) + ex) in
  ex <= f -> f <= 971 ->
  lo * 2 ^ (f - ex) <= Z.pos mx <= hi * 2 ^ (f - ex) ->
  hi < 2 ^ (971 - f) ->
  match binary_round_aux prec emax sx (Z.pos mx) ex loc_Exact with
  | S754_zero s => s = sx /\ lo <= 0
  | S754_finite s m e =>
      s = sx /\ f <= e <= f + 1 /\ lo <= Z.pos m * 2 ^ (e - f) <= hi
  | _ => False
  end.
Proof.
  intros f Hf Hf' [Hlo Hhi] Hov.
  destruct (binary_round_aux_value sx mx ex Hf) as (m2 & Hr & Hex & Hres).
  fold f in Hr, Hex, Hres.
  assert (Hpow : 0 < 2 ^ (f - ex)) by (apply Z.pow_pos_nonneg; lia).
  assert (Hm2 : lo <= m2 <= hi).
  { split.
    - apply Z.le_trans with (Z.pos mx / 2 ^ (f - ex)); [|lia].
      apply Z.div_le_lower_bound; lia.
    - destruct (Z.eq_dec (Z.pos mx mod 2 ^ (f - ex)) 0) as [E|E].
      + rewrite (Hex E). apply Z.div_le_upper_bound; lia.
      + pose proof (Z.div_mod (Z.pos mx) (2 ^ (f - ex)) ltac:(lia)) as Hdm.
        pose proof (Z.mod_pos_bound (Z.pos mx) (2 ^ (f - ex)) Hpow) as Hmb.
        assert (Z.pos mx / 2 ^ (f - ex) < hi); [|lia].
        apply Z.mul_lt_mono_pos_l with (2 ^ (f - ex)); lia. }
  destruct (binary_round_aux prec emax sx (Z.pos mx) ex loc_Exact)
    as [s|s| |s m e].
  - destruct Hres as [-> ->]. split; [reflexivity|lia].
  - destruct Hres as (_ & m & e & He & Hfe & Hv).
    unfold emax, prec in He.
    assert (2 ^ (971 - f) <= 2 ^ (e - f)) by (apply Z.pow_le_mono_r; lia).
    nia.
  - exact Hres.
  - destruct Hres as (-> & Hfe & Hv). repeat split; lia.
Qed.

Lemma pos_iter_xO m d : Z.pos (Pos.iter xO m d) = Z.pos m * 2 ^ Z.pos d.
Proof.
  induction d as [|d IH] using Pos.peano_ind.
  - simpl. lia.
  - rewrite Pos.iter_succ, Pos2Z.inj_xO, IH, Pos2Z.inj_succ, Z.pow_succ_r; lia.
Qed.

(** [shl_align] to an exponent [ez <= ex] scales the mantissa. *)
Lemma shl_align_down mx ex ez :
  ez <= ex ->
  Z.pos (fst (shl_align mx ex ez)) = Z.pos mx * 2 ^ (ex - ez).
Proof.
  intros H. unfold shl_align. destruct (ez - ex) as [|d|d] eqn:E; cbn [fst].
  - replace (ex - ez) with 0 by lia. lia.
  - lia.
  - rewrite pos_iter_xO. f_equal. f_equal. lia.
Qed.

(** [shl_align] keeps the value and the position of the leading digit, and
    brings the exponent to [ez] or below. *)
Lemma shl_align_spec mx ex ez :
  let '(m', e') := shl_align mx ex ez in
  e' <= ex /\ e' <= ez /\ (e' = ex \/ e' = ez)
  /\ Z.pos m' = Z.pos mx * 2 ^ (ex - e')
  /\ Z.pos (digits2_pos m') + e' = Z.pos (digits2_pos mx) + ex.
Proof.
  unfold shl_align. destruct (ez - ex) as [|d|d] eqn:E.
  - repeat split; try lia. now rewrite Z.sub_diag, Z.mul_1_r.
  - repeat split; try lia. now rewrite Z.sub_diag, Z.mul_1_r.
  - repeat split; try lia.
    + rewrite pos_iter_xO. f_equal. f_equal. lia.
    + rewrite !digits2_pos_log2, pos_iter_xO, Z.log2_mul_pow2; lia.
Qed.

(** ** The speed formula [Math.floor(base + Math.random() * 20)] *)

(** A product of a number in [0, 1) with 20 is zero or at most 20. *)
Lemma mul20_bounds m e :
  e < 0 -> Z.pos m < 2 ^ (- e) ->
  match SFmul prec emax (S754_finite false m e) SF20 with
  | S754_zero s => s = false
  | S754_finite s m' e' =>
      s = false /\ -1074 <= e' /\ ticks m' e' <= 20 * 2 ^ 1074
  | _ => False
  end.
Proof.
  intros He Hm. unfold SF20, SFmul. cbn [xorb].
  set (my := 5629499534213120%positive).
  set (f := fexp prec emax (Z.pos (digits2_pos (m * my)) + (e + -48))).
  pose proof (digits2_pos_bounds (m * my)) as Hd.
  assert (Hmy : Z.pos my = 5 * 2 ^ 50) by reflexivity.
  assert (Hp : Z.pos (m * my) < 5 * 2 ^ (50 - e)).
  { rewrite Pos2Z.inj_mul, Hmy.
    replace (50 - e) with (- e + 50) by lia. rewrite Z.pow_add_r by lia.
    nia. }
  assert (Hd1 : 52 < Z.pos (digits2_pos (m * my))).
  { apply digits2_pos_ge; [lia|]. rewrite Pos2Z.inj_mul, Hmy.
    change (2 ^ 52) with (1 * (4 * 2 ^ 50)). nia. }
  assert (Hd2 : Z.pos (digits2_pos (m * my)) <= 53 - e).
  { apply digits2_pos_le; [lia|].
    apply Z.lt_le_trans with (5 * 2 ^ (50 - e)); [exact Hp|].
    replace (53 - e) with (3 + (50 - e)) by lia.
    rewrite Z.pow_add_r by lia. change (2 ^ 3) with 8.
    assert (0 < 2 ^ (50 - e)) by (apply Z.pow_pos_nonneg; lia). lia. }
  assert (Hf : e + -48 <= f /\ -1074 <= f <= -48).
  { subst f. rewrite fexp_spec. lia. }
  pose proof (binary_round_aux_bounds false (m * my) (e + -48) 0 (5 * 2 ^ (2 - f)))
    as H.
  cbv zeta in H. fold f in H.
  assert (E1 : 2 ^ (50 - e) = 2 ^ (2 - f) * 2 ^ (f - (e + -48))).
  { rewrite <- Z.pow_add_r by lia. f_equal; lia. }
  assert (E2 : 2 ^ (971 - f) = 2 ^ 969 * 2 ^ (2 - f)).
  { rewrite <- Z.pow_add_r by lia. f_equal; lia. }
  assert (P1 : 0 < 2 ^ (2 - f)) by (apply Z.pow_pos_nonneg; lia).
  assert (P2 : 8 <= 2 ^ 969).
  { change 8 with (2 ^ 3). apply Z.pow_le_mono_r; lia. }
  specialize (H ltac:(lia) ltac:(lia) ltac:(nia) ltac:(nia)).
  destruct (binary_round_aux prec emax false (Z.pos (m * my)) (e + -48) loc_Exact)
    as [s|s| |s m' e']; try tauto.
  destruct H as (-> & He' & Hv). repeat split; [lia|].
  unfold ticks.
  replace (e' + 1074) with ((e' - f) + (f + 1074)) by lia.
  rewrite Z.pow_add_r by lia.
  replace (20 * 2 ^ 1074) with (5 * 2 ^ (2 - f) * 2 ^ (f + 1074)).
  - rewrite Z.mul_assoc. apply Z.mul_le_mono_nonneg_r; [|lia].
    apply Z.pow_nonneg; lia.
  - rewrite <- Z.mul_assoc, <- Z.pow_add_r by lia.
    replace (2 - f + (f + 1074)) with (2 + 1074) by lia.
    rewrite Z.pow_add_r by lia. lia.
Qed.

(** Adding a number between 0 and 20 to a base [B] between 32 and 100
    gives a number between [B] and [B + 20], with a negative exponent. *)
Lemma add_base_bounds B mb eb m' e' :
  32 <= B <= 100 -> -1074 <= eb -> ticks mb eb = B * 2 ^ 1074 ->
  -1074 <= e' -> ticks m' e' <= 20 * 2 ^ 1074 ->
  match SFadd prec emax (S754_finite false mb eb) (S754_finite false m' e') with
  | S754_finite s m3 e3 =>
      s = false /\ -1074 <= e3 < 0
      /\ B * 2 ^ 1074 <= ticks m3 e3 <= (B + 20) * 2 ^ 1074
  | _ => False
  end.
Proof.
  intros HB Heb Hb He' Hx. unfold SFadd. cbn [cond_Zopp].
  set (ez := Z.min eb e').
  rewrite (shl_align_down mb eb ez), (shl_align_down m' e' ez) by lia.
  assert (Hez : -1074 <= ez) by lia.
  set (S := Z.pos mb * 2 ^ (eb - ez) + Z.pos m' * 2 ^ (e' - ez)).
  assert (P0 : 0 < 2 ^ (ez + 1074)) by (apply Z.pow_pos_nonneg; lia).
  assert (HS : S * 2 ^ (ez + 1074) = ticks mb eb + ticks m' e').
  { unfold S, ticks.
    rewrite Z.mul_add_distr_r, <- !Z.mul_assoc, <- !Z.pow_add_r by lia.
    replace (eb - ez + (ez + 1074)) with (eb + 1074) by lia.
    replace (e' - ez + (ez + 1074)) with (e' + 1074) by lia.
    reflexivity. }
  assert (Hx0 : 0 < ticks m' e').
  { unfold ticks. apply Z.mul_pos_pos; [lia|]. apply Z.pow_pos_nonneg; lia. }
  assert (HSpos : 0 < S) by nia.
  destruct S as [|pS|pS] eqn:ES; try lia.
  unfold binary_normalize, binary_round.
  set (F := fexp prec emax (Z.pos (digits2_pos pS) + ez)).
  pose proof (shl_align_spec pS ez F) as Hal.
  destruct (shl_align pS ez F) as [mz ez'].
  destruct Hal as (Ha1 & Ha2 & Ha0 & Ha3 & Ha4).
  pose proof (digits2_pos_bounds pS) as Hd.
  assert (Hez6 : ez <= 6).
  { assert (eb < 7); [|lia]. destruct (Z_lt_ge_dec eb 7); [assumption|].
    assert (2 ^ 1081 <= 2 ^ (eb + 1074)) by (apply Z.pow_le_mono_r; lia).
    change (2 ^ 1081) with (128 * 2 ^ 1074) in *.
    assert (0 < 2 ^ 1074) by (apply Z.pow_pos_nonneg; lia).
    unfold ticks in Hb. nia. }
  (* the leading digit of the sum sits at 2^5 or 2^6 *)
  assert (Hhigh : Z.pos pS < 2 ^ (7 - ez)).
  { apply Z.mul_lt_mono_pos_r with (2 ^ (ez + 1074)); [lia|].
    rewrite <- Z.pow_add_r by lia.
    replace (7 - ez + (ez + 1074)) with (7 + 1074) by lia.
    rewrite (Z.pow_add_r 2 7 1074) by lia. change (2 ^ 7) with 128.
    assert (0 < 2 ^ 1074) by (apply Z.pow_pos_nonneg; lia). nia. }
  assert (Hdg : 6 <= Z.pos (digits2_pos pS) + ez <= 7).
  { split.
    - destruct (Z_le_gt_dec ez 5) as [Hle|Hgt]; [|lia].
      assert (5 - ez < Z.pos (digits2_pos pS)); [|lia].
      apply digits2_pos_ge; [lia|].
      apply Z.mul_le_mono_pos_r with (2 ^ (ez + 1074)); [lia|].
      rewrite <- Z.pow_add_r by lia.
      replace (5 - ez + (ez + 1074)) with (5 + 1074) by lia.
      rewrite (Z.pow_add_r 2 5 1074) by lia. change (2 ^ 5) with 32. nia.
    - assert (Z.pos (digits2_pos pS) <= 7 - ez); [|lia].
      apply digits2_pos_le; lia. }
  assert (HF : -47 <= F <= -46).
  { subst F. rewrite fexp_spec. lia. }
  pose proof (binary_round_aux_bounds false mz ez'
                (B * 2 ^ (- F)) ((B + 20) * 2 ^ (- F))) as H.
  cbv zeta in H. rewrite Ha4 in H. fold F in H.
  assert (Q1 : 0 < 2 ^ (F - ez')) by (apply Z.pow_pos_nonneg; lia).
  assert (Q2 : 0 < 2 ^ (- F)) by (apply Z.pow_pos_nonneg; lia).
  assert (Q3 : 0 < 2 ^ (ez' + 1074)) by (apply Z.pow_pos_nonneg; lia).
  assert (Hmz : Z.pos mz * 2 ^ (ez' + 1074) = ticks mb eb + ticks m' e').
  { rewrite Ha3, <- HS, <- Z.mul_assoc, <- Z.pow_add_r by lia.
    replace (ez - ez' + (ez' + 1074)) with (ez + 1074) by lia.
    reflexivity. }
  assert (E1 : 2 ^ (- F) * 2 ^ (F - ez') * 2 ^ (ez' + 1074) = 2 ^ 1074).
  { rewrite <- !Z.pow_add_r by lia. f_equal; lia. }
  assert (E2 : 2 ^ (971 - F) = 2 ^ 971 * 2 ^ (- F)).
  { rewrite <- Z.pow_add_r by lia. f_equal; lia. }
  assert (P2 : 128 <= 2 ^ 971).
  { change 128 with (2 ^ 7). apply Z.pow_le_mono_r; lia. }
  assert (B1 : B * 2 ^ (- F) * 2 ^ (F - ez') <= Z.pos mz).
  { apply Z.mul_le_mono_pos_r with (2 ^ (ez' + 1074)); [lia|].
    rewrite Hmz. replace (B * 2 ^ (- F) * 2 ^ (F - ez') * 2 ^ (ez' + 1074))
      with (B * (2 ^ (- F) * 2 ^ (F - ez') * 2 ^ (ez' + 1074))) by ring.
    rewrite E1. lia. }
  assert (B2 : Z.pos mz <= (B + 20) * 2 ^ (- F) * 2 ^ (F - ez')).
  { apply Z.mul_le_mono_pos_r with (2 ^ (ez' + 1074)); [lia|].
    rewrite Hmz. replace ((B + 20) * 2 ^ (- F) * 2 ^ (F - ez') * 2 ^ (ez' + 1074))
      with ((B + 20) * (2 ^ (- F) * 2 ^ (F - ez') * 2 ^ (ez' + 1074))) by ring.
    rewrite E1. lia. }
  specialize (H ltac:(lia) ltac:(lia) ltac:(lia) ltac:(nia)).
  destruct (binary_round_aux prec emax false (Z.pos mz) ez' loc_Exact)
    as [s|s| |s m3 e3]; try tauto.
  - destruct H as [_ H]. nia.
  - destruct H as (-> & He3 & Hlo & Hhi). split; [reflexivity|].
    split; [lia|]. unfold ticks.
    replace (e3 + 1074) with ((e3 - F) + (F + 1074)) by lia.
    rewrite Z.pow_add_r, Z.mul_assoc by lia.
    assert (E3 : 2 ^ 1074 = 2 ^ (- F) * 2 ^ (F + 1074)).
    { rewrite <- Z.pow_add_r by lia. f_equal; lia. }
    assert (Q4 : 0 < 2 ^ (F + 1074)) by (apply Z.pow_pos_nonneg; lia).
    rewrite E3. split.
    + rewrite Z.mul_assoc. apply Z.mul_le_mono_nonneg_r; lia.
    + rewrite Z.mul_assoc. apply Z.mul_le_mono_nonneg_r; lia.
Qed.

(** [Math.floor] of a number between [B] and [B + 20] that has a negative
    exponent. *)
Lemma Math_floor_bounds B x m e :
  Prim2SF x = S754_finite false m e ->
  0 < B -> -1074 <= e < 0 ->
  B * 2 ^ 1074 <= ticks m e <= (B + 20) * 2 ^ 1074 ->
  exists n, Math_floor x = number_of_Z n /\ B <= n <= B + 20.
Proof.
  intros Hx HB He [Hlo Hhi]. exists (Z.pos m / 2 ^ (- e)).
  assert (P1 : 0 < 2 ^ (- e)) by (apply Z.pow_pos_nonneg; lia).
  assert (P2 : 0 < 2 ^ (e + 1074)) by (apply Z.pow_pos_nonneg; lia).
  assert (E : 2 ^ 1074 = 2 ^ (- e) * 2 ^ (e + 1074)).
  { rewrite <- Z.pow_add_r by lia. f_equal; lia. }
  unfold ticks in Hlo, Hhi. rewrite E in Hlo, Hhi.
  rewrite !Z.mul_assoc in Hlo, Hhi.
  apply Z.mul_le_mono_pos_r in Hlo; [|exact P2].
  apply Z.mul_le_mono_pos_r in Hhi; [|exact P2].
  assert (Hq : B <= Z.pos m / 2 ^ (- e) <= B + 20).
  { split.
    - apply Z.div_le_lower_bound; lia.
    - apply Z.div_le_upper_bound; lia. }
  split; [|exact Hq].
  unfold Math_floor. rewrite Hx.
  destruct (0 <=? e) eqn:E0; [apply Z.leb_le in E0; lia|].
  destruct (Z.pos m / 2 ^ (- e) =? 0) eqn:E1; [apply Z.eqb_eq in E1; lia|].
  reflexivity.
Qed.

Lemma Prim2SF_0 : Prim2SF 0 = S754_zero false.
Proof. vm_compute. reflexivity. Qed.

Lemma Prim2SF_1 : Prim2SF 1 = S754_finite false 4503599627370496 (-52).
Proof. vm_compute. reflexivity. Qed.

Lemma Prim2SF_20 : Prim2SF 20 = SF20.
Proof. vm_compute. reflexivity. Qed.

Lemma Prim2SF_50 : Prim2SF 50 = SF50.
Proof. vm_compute. reflexivity. Qed.

Lemma Prim2SF_80 : Prim2SF 80 = SF80.
Proof. vm_compute. reflexivity. Qed.

Lemma SFltb_finite_pos m1 e1 m2 e2 :
  SFltb (S754_finite false m1 e1) (S754_finite false m2 e2) = true ->
  e1 < e2 \/ (e1 = e2 /\ Z.pos m1 < Z.pos m2).
Proof.
  unfold SFltb, SFcompare. destruct (e1 ?= e2) eqn:Ec.
  - apply Z.compare_eq in Ec. rewrite Pos.compare_cont_spec.
    unfold Pos.switch_Eq. rewrite Pos2Z.inj_compare.
    destruct (Z.pos m1 ?= Z.pos m2) eqn:Em; try discriminate.
    apply Z.compare_lt_iff in Em. auto.
  - apply Z.compare_lt_iff in Ec. auto.
  - discriminate.
Qed.

Lemma SFleb_zero_finite s m e :
  SFleb (S754_zero false) (S754_finite s m e) = true -> s = false.
Proof. destruct s; [discriminate|reflexivity]. Qed.

Lemma valid_binary_finite s m e :
  valid_binary (S754_finite s m e) = true ->
  Z.pos (digits2_pos m) <= 53 /\ -1074 <= e.
Proof.
  unfold valid_binary, SpecFloat.valid_binary, bounded, canonical_mantissa.
  intros H.
  apply andb_prop in H as [Hc _]. apply Z.eqb_eq in Hc.
  rewrite fexp_spec in Hc. lia.
Qed.

(** A number in [0, 1) is a zero or a positive finite number below 1. *)
Lemma unit_interval_spec rnd :
  (0 <=? rnd)%float = true -> (rnd <? 1)%float = true ->
  (exists s, Prim2SF rnd = S754_zero s)
  \/ (exists m e, Prim2SF rnd = S754_finite false m e
                  /\ e < 0 /\ Z.pos m < 2 ^ (- e)).
Proof.
  intros H0 H1. rewrite leb_spec in H0. rewrite ltb_spec in H1.
  pose proof (Prim2SF_valid rnd) as Hv.
  rewrite Prim2SF_0 in H0. rewrite Prim2SF_1 in H1.
  destruct (Prim2SF rnd) as [s|s| |s m e].
  - left. now exists s.
  - destruct s; discriminate.
  - discriminate.
  - right. exists m, e.
    apply SFleb_zero_finite in H0. subst s. split; [reflexivity|].
    apply valid_binary_finite in Hv as [Hd53 _].
    pose proof (digits2_pos_bounds m) as Hd.
    apply SFltb_finite_pos in H1 as [He|[He Hm]].
    + split; [lia|].
      apply Z.lt_le_trans with (2 ^ Z.pos (digits2_pos m)); [lia|].
      apply Z.pow_le_mono_r; lia.
    + subst e. split; [lia|]. exact Hm.
Qed.

(** The speed a position tick computes from the base [B] of the leg and a
    jitter in [0, 1): an integer between [B] and [B + 20]. *)
Lemma speed_formula_range base B mb eb rnd :
  Prim2SF base = S754_finite false mb eb ->
  -1074 <= eb < 0 -> ticks mb eb = B * 2 ^ 1074 -> 32 <= B <= 100 ->
  (0 <=? rnd)%float = true -> (rnd <? 1)%float = true ->
  exists n, Math_floor (base + rnd * 20)%float = number_of_Z n
            /\ B <= n <= B + 20.
Proof.
  intros Hbase Heb Hb HB H0 H1.
  assert (P : 0 < 2 ^ 1074) by (apply Z.pow_pos_nonneg; lia).
  assert (Hsum : Prim2SF (base + rnd * 20)%float
                 = SFadd prec emax (S754_finite false mb eb)
                     (SFmul prec emax (Prim2SF rnd) SF20)).
  { rewrite add_spec, mul_spec, Hbase, Prim2SF_20. reflexivity. }
  destruct (unit_interval_spec rnd H0 H1) as [[s Hr]|(m & e & Hr & He & Hm)];
    rewrite Hr in Hsum.
  - (* a zero jitter leaves the base *)
    change (SFmul prec emax (S754_zero s) SF20) with (S754_zero (xorb s false))
      in Hsum.
    cbn [SFadd] in Hsum.
    apply (Math_floor_bounds B _ mb eb Hsum); nia.
  - pose proof (mul20_bounds m e He Hm) as Hmul.
    destruct (SFmul prec emax (S754_finite false m e) SF20)
      as [s|s| |s m' e']; try tauto.
    + cbn [SFadd] in Hsum. apply (Math_floor_bounds B _ mb eb Hsum); nia.
    + destruct Hmul as (-> & He' & Hx).
      pose proof (add_base_bounds B mb eb m' e' HB ltac:(lia) Hb He' Hx) as Hadd.
      rewrite <- Hsum in Hadd.
      destruct (Prim2SF (base + rnd * 20)%float) as [s|s| |s m3 e3] eqn:E;
        try tauto.
      destruct Hadd as (-> & He3 & Hv).
      apply (Math_floor_bounds B _ m3 e3 E); lia.
Qed.

Lemma In_interval n : forall lo x,
  lo <= x < lo + Z.of_nat n -> In x (interval lo n).
Proof.
  induction n as [|n IH]; intros lo x Hx; [lia|].
  cbn [interval]. destruct (Z.eq_dec lo x) as [->|Hne]; [now left|].
  right. apply IH. lia.
Qed.

Lemma leg_speeds_ordered a b :
  50 <= a <= 70 -> 80 <= b <= 100 ->
  (number_of_Z a <? number_of_Z b)%float = true.
Proof.
  intros Ha Hb.
  assert (H : forallb (fun a' =>
                forallb (fun b' => (number_of_Z a' <? number_of_Z b')%float)
                  (interval 80 21)) (interval 50 21) = true)
    by (vm_compute; reflexivity).
  rewrite forallb_forall in H.
  specialize (H a (In_interval 21 50 a ltac:(lia))).
  rewrite forallb_forall in H.
  exact (H b (In_interval 21 80 b ltac:(lia))).
Qed.

Lemma tick_speed w k r pos rnd :
  rendered w k = Some r -> trafficState r <> RED ->
  speed (app (handle w (PositionUpdate k pos rnd))) =
  Math_floor ((if status r === ENROUTE_HOSPITAL then 80 else 50)
              + rnd * 20)%float.
Proof.
  intros Hk Ht. unfold handle, handlePositionUpdate. rewrite Hk.
  destruct (trafficState r); try congruence;
    unfold strict_eqb at 1, TrafficLightState_StrictEq; run_effects;
    reflexivity.
Qed.

(** C9, as the code has it: a position tick whose handler reads a signal
    that is not red, with a jitter in [0, 1), sets a speed that is an
    integer between 80 and 100 when it reads the hospital leg and between
    50 and 70 when it reads any other status; so every hospital-leg sample
    is greater than every other sample. *)
Theorem hospital_leg_speed_exceeds_other_legs
    w1 w2 k1 k2 r1 r2 pos1 pos2 rnd1 rnd2 :
  rendered w1 k1 = Some r1 -> rendered w2 k2 = Some r2 ->
  trafficState r1 <> RED -> trafficState r2 <> RED ->
  status r1 = ENROUTE_HOSPITAL -> status r2 <> ENROUTE_HOSPITAL ->
  (0 <=? rnd1)%float = true -> (rnd1 <? 1)%float = true ->
  (0 <=? rnd2)%float = true -> (rnd2 <? 1)%float = true ->
  exists n1 n2,
    speed (app (handle w1 (PositionUpdate k1 pos1 rnd1))) = number_of_Z n1
    /\ speed (app (handle w2 (PositionUpdate k2 pos2 rnd2))) = number_of_Z n2
    /\ 80 <= n1 <= 100
    /\ 50 <= n2 <= 70
    /\ (speed (app (handle w2 (PositionUpdate k2 pos2 rnd2)))
        <? speed (app (handle w1 (PositionUpdate k1 pos1 rnd1))))%float = true.
Proof.
  intros Hk1 Hk2 Ht1 Ht2 Hs1 Hs2 Ha1 Hb1 Ha2 Hb2.
  rewrite (tick_speed w1 k1 r1 pos1 rnd1 Hk1 Ht1),
    (tick_speed w2 k2 r2 pos2 rnd2 Hk2 Ht2), Hs1.
  assert (E2 : (status r2 === ENROUTE_HOSPITAL) = false)
    by (destruct (status r2); try reflexivity; congruence).
  rewrite E2.
  change (ENROUTE_HOSPITAL === ENROUTE_HOSPITAL) with true. cbv iota.
  destruct (speed_formula_range 80%float 80 5629499534213120 (-46) rnd1
              Prim2SF_80 ltac:(lia) ltac:(reflexivity) ltac:(lia) Ha1 Hb1)
    as (n1 & E1 & Hn1).
  destruct (speed_formula_range 50%float 50 7036874417766400 (-47) rnd2
              Prim2SF_50 ltac:(lia) ltac:(reflexivity) ltac:(lia) Ha2 Hb2)
    as (n2 & E2' & Hn2).
  exists n1, n2. rewrite E1, E2'.
  repeat split; try lia. apply leg_speeds_ordered; lia.
Qed.

(** C9, as the claim has it, fails at its upper ends: for the jitter
    [1 - 2 ^ -52] the sum of base and jitter times 20 rounds up to the next
    integer, and the speed is 100 on the hospital leg and 70 on the patient
    leg. *)
Lemma tick_speed_reaches_100_and_70 :
  (0 <=? nearOne)%float = true
  /\ (nearOne <? 1)%float = true
  /\ rendered enrouteHospitalWorld 3 = Some (app enrouteHospitalWorld)
  /\ trafficState (app enrouteHospitalWorld) = GREEN
  /\ status (app enrouteHospitalWorld) = ENROUTE_HOSPITAL
  /\ speed (app (handle enrouteHospitalWorld
                   (PositionUpdate 3 patientPos nearOne)))
     = 100%float
  /\ rendered enroutePatientWorld 1 = Some (app enroutePatientWorld)
  /\ trafficState (app enroutePatientWorld) = GREEN_CORRIDOR_ACTIVE
  /\ status (app enroutePatientWorld) = ENROUTE_PATIENT
  /\ speed (app (handle enroutePatientWorld
                   (PositionUpdate 1 patientPos nearOne)))
     = 70%float.
Proof.
  do 9 (split; [vm_compute; reflexivity|]). vm_compute. reflexivity.
Qed.

(** ** The theorems at concrete inputs *)

Lemma begin_transport_reroutes_to_hospital_witness :
  targetPos (app atPatientWorld) = Some patientPos
  /\ ambulancePos (app (handle atPatientWorld
                          (TransportToHospital stamp0 stamp0))) = patientPos
  /\ targetPos (app (handle atPatientWorld
                       (TransportToHospital stamp0 stamp0)))
     = Some HOSPITAL_LOC.
Proof.
  split; [vm_compute; reflexivity|].
  destruct (begin_transport_reroutes_to_hospital atPatientWorld patientPos
              stamp0 stamp0 ltac:(vm_compute; reflexivity)) as (H1 & H2 & _).
  split; [exact H1|exact H2].
Defined.

Lemma completed_mission_resets_to_idle_witness :
  status (app enrouteHospitalWorld) = ENROUTE_HOSPITAL
  /\ status (app (handle enrouteHospitalWorld
                    (Arrival (latest enrouteHospitalWorld) stamp0)))
     = COMPLETED
  /\ status (app completedWorld) = COMPLETED
  /\ status (app (handle completedWorld TimeoutFired)) = IDLE
  /\ ambulancePos (app (handle completedWorld TimeoutFired)) = HOSPITAL_LOC.
Proof.
  assert (Hr : reachable enrouteHospitalWorld).
  { apply (reachable_next atPatientWorld (TransportToHospital stamp0 stamp0)).
    - exact atPatientWorld_reachable.
    - vm_compute. reflexivity. }
  assert (Hs : status (app enrouteHospitalWorld) = ENROUTE_HOSPITAL)
    by (vm_compute; reflexivity).
  assert (Hc : status (app completedWorld) = COMPLETED)
    by (vm_compute; reflexivity).
  destruct (proj1 completed_mission_resets_to_idle enrouteHospitalWorld
              stamp0 Hr Hs) as (_ & _ & H3 & _).
  destruct (proj2 (proj2 completed_mission_resets_to_idle) completedWorld
              completedWorld_reachable Hc)
    as (_ & _ & _ & H4 & _ & _ & _ & H8).
  exact (conj Hs (conj H3 (conj Hc (conj H4 H8)))).
Defined.

Lemma reset_puts_ambulance_at_hospital_witness :
  let w1 := next atPatientWorld (TransportToHospital stamp0 stamp0) in
  let w2 := next w1 (Arrival 3 stamp0) in
  let w3 := next w2 TimeoutFired in
  rendered w1 3 = Some (app w1)
  /\ status (app w1) = ENROUTE_HOSPITAL
  /\ targetPos (app atPatientWorld) = Some patientPos
  /\ ambulancePos (app w1) = patientPos
  /\ status (app w2) = COMPLETED
  /\ ambulancePos (app w3) = HOSPITAL_LOC
  /\ targetPos (app w3) = None.
Proof.
  cbv zeta.
  assert (Hk : rendered (next atPatientWorld
                           (TransportToHospital stamp0 stamp0)) 3
               = Some (app (next atPatientWorld
                              (TransportToHospital stamp0 stamp0))))
    by (vm_compute; reflexivity).
  assert (Hs : status (app (next atPatientWorld
                              (TransportToHospital stamp0 stamp0)))
               = ENROUTE_HOSPITAL)
    by (vm_compute; reflexivity).
  assert (Ht : targetPos (app atPatientWorld) = Some patientPos)
    by (vm_compute; reflexivity).
  pose proof (reset_puts_ambulance_at_hospital atPatientWorld stamp0 stamp0
                stamp0 3
                (app (next atPatientWorld (TransportToHospital stamp0 stamp0)))
                atPatientWorld_reachable) as H.
  cbv zeta in H. destruct (H Hk Hs) as (H1 & _ & _ & H4 & _ & H6 & H7).
  exact (conj Hk (conj Hs (conj Ht (conj (H1 patientPos Ht)
                                       (conj H4 (conj H6 H7)))))).
Defined.

Lemma hospital_leg_speed_exceeds_other_legs_witness :
  exists n1 n2,
    speed (app (handle enrouteHospitalWorld
                  (PositionUpdate 3 patientPos 0.5%float)))
    = number_of_Z n1
    /\ speed (app (handle enroutePatientWorld
                     (PositionUpdate 1 patientPos nearOne)))
       = number_of_Z n2
    /\ 80 <= n1 <= 100
    /\ 50 <= n2 <= 70
    /\ (speed (app (handle enroutePatientWorld
                      (PositionUpdate 1 patientPos nearOne)))
        <? speed (app (handle enrouteHospitalWorld
                         (PositionUpdate 3 patientPos 0.5%float))))%float
       = true.
Proof.
  apply (hospital_leg_speed_exceeds_other_legs enrouteHospitalWorld
           enroutePatientWorld 3 1 (app enrouteHospitalWorld)
           (app enroutePatientWorld) patientPos patientPos 0.5%float nearOne).
  - vm_compute. reflexivity.
  - vm_compute. reflexivity.
  - vm_compute. discriminate.
  - vm_compute. discriminate.
  - vm_compute. reflexivity.
  - vm_compute. discriminate.
  - vm_compute. reflexivity.
  - vm_compute. reflexivity.
  - vm_compute. reflexivity.
  - vm_compute. reflexivity.
Defined.

Lemma manual_location_rejects_non_numbers_witness :
  manualLat (app badInputWorld) = "abc"
  /\ manualLng (app badInputWorld) = "xyz"
  /\ isNaN (parseFloat "abc") = true
  /\ isNaN (parseFloat "xyz") = true
  /\ ambulancePos (app (handle badInputWorld (ManualLocation stamp0)))
     = ambulancePos (app badInputWorld)
  /\ logs (app (handle badInputWorld (ManualLocation stamp0)))
     = (logs (app badInputWorld) ++ [invalidCoordinatesLog stamp0])%list.
Proof.
  do 4 (split; [vm_compute; reflexivity|]).
  assert (Hn : isNaN (parseFloat (manualLat (app badInputWorld))) = true)
    by (vm_compute; reflexivity).
  destruct (proj1 (manual_location_rejects_non_numbers badInputWorld stamp0)
              (or_introl Hn))
    as (H1 & _ & H3).
  split; [exact H1|exact H3].
Defined.

(** ** Further properties of the handlers *)

Lemma handle_appends_logs w ev :
  exists l, logs (app (handle w ev)) = (logs (app w) ++ l)%list
            /\ (List.length l <= 2)%nat.
Proof.
  each_event w ev;
    try (exists []; rewrite app_nil_r; split; [reflexivity|simpl; lia]);
    try (eexists [_]; split; [reflexivity|simpl; lia]);
    try (eexists [_; _]; rewrite <- ?app_assoc; split; [reflexivity|simpl; lia]).
Qed.

(** X1: the log is append-only.  Whatever events are handled, from whichever
    renders the callbacks of the map come, the entries logged before are
    still there, unchanged and in their order, followed by at most two new
    entries per event. *)
Theorem logs_are_append_only evs : forall w w',
  run w evs = Some w' ->
  exists l, logs (app w') = (logs (app w) ++ l)%list
            /\ (List.length l <= 2 * List.length evs)%nat.
Proof.
  induction evs as [|ev evs IH]; intros w w' Hrun; cbn [run] in Hrun.
  - injection Hrun as <-. exists []. rewrite app_nil_r. split; [reflexivity|simpl; lia].
  - unfold step in Hrun. destruct (enabled w ev); [|discriminate].
    destruct (IH _ _ Hrun) as (l2 & E2 & L2).
    destruct (handle_appends_logs w ev) as (l1 & E1 & L1).
    unfold next in E2. rewrite app_commit in E2.
    exists (l1 ++ l2)%list. rewrite E2, E1, <- app_assoc.
    split; [reflexivity|]. rewrite length_app. cbn [List.length]. lia.
Qed.

Lemma tick_speed_in_range w k r pos rnd :
  rendered w k = Some r ->
  (0 <=? rnd)%float = true -> (rnd <? 1)%float = true ->
  speed_in_range (speed (app (handle w (PositionUpdate k pos rnd)))).
Proof.
  intros Hk H0 H1.
  destruct (trafficState r === RED) eqn:Ered.
  - left. unfold handle, handlePositionUpdate. rewrite Hk, Ered.
    run_effects. reflexivity.
  - assert (Ht : trafficState r <> RED)
      by (intros E; rewrite E in Ered; discriminate).
    right. rewrite (tick_speed w k r pos rnd Hk Ht).
    destruct (status r === ENROUTE_HOSPITAL).
    + destruct (speed_formula_range 80%float 80 5629499534213120 (-46) rnd
                  Prim2SF_80 ltac:(lia) ltac:(reflexivity) ltac:(lia) H0 H1)
        as (n & E & Hn).
      exists n. split; [lia|exact E].
    + destruct (speed_formula_range 50%float 50 7036874417766400 (-47) rnd
                  Prim2SF_50 ltac:(lia) ltac:(reflexivity) ltac:(lia) H0 H1)
        as (n & E & Hn).
      exists n. split; [lia|exact E].
Qed.

Lemma handle_keeps_speed_in_range w ev :
  jitter_ok ev = true ->
  speed_in_range (speed (app w)) -> speed_in_range (speed (app (handle w ev))).
Proof.
  intros Hj Hs.
  assert (Hev : (exists k pos rnd, ev = PositionUpdate k pos rnd)
                \/ (forall k pos rnd, ev <> PositionUpdate k pos rnd)).
  { destruct ev; try (right; discriminate). left. eauto. }
  destruct Hev as [(k & pos & rnd & ->)|Hev].
  - cbn [jitter_ok] in Hj. apply andb_prop in Hj as [H0 H1].
    destruct (rendered w k) as [r|] eqn:Hk.
    + now apply (tick_speed_in_range w k r).
    + unfold handle. rewrite Hk. exact Hs.
  - each_event w ev;
      solve [exact Hs | left; reflexivity | exfalso; eapply Hev; reflexivity].
Qed.

(** X2: as long as every tick carries a jitter in [0, 1), the speed shown
    is 0 or a whole number from 50 to 100, after any run of events,
    whichever renders the ticks come from. *)
Theorem speed_stays_in_range evs : forall w w',
  speed_in_range (speed (app w)) ->
  forallb jitter_ok evs = true ->
  run w evs = Some w' ->
  speed_in_range (speed (app w')).
Proof.
  induction evs as [|ev evs IH]; intros w w' Hs Hj Hrun; cbn [run] in Hrun.
  - now injection Hrun as <-.
  - cbn [forallb] in Hj. apply andb_prop in Hj as [Hj1 Hj2].
    unfold step in Hrun. destruct (enabled w ev); [|discriminate].
    apply (IH (next w ev) w'); auto.
    unfold next. rewrite app_commit.
    now apply handle_keeps_speed_in_range.
Qed.

(** X3: the stored ambulance position is changed only by set-manual-location,
    a geolocation fix, begin-transport and the reset timer (position ticks,
    whose reported position is not read, leave it alone); the target is
    changed only by start-mission, begin-transport and the reset timer, and
    a target that is set stays set until that timer fires. *)
Theorem position_and_target_change_only_by w ev :
  match ev with
  | ManualLocation _ | GeolocationSuccess _ _ _ | TransportToHospital _ _
  | TimeoutFired => True
  | _ => ambulancePos (app (handle w ev)) = ambulancePos (app w)
  end
  /\ match ev with
     | StartMission _ _ _ | TransportToHospital _ _ | TimeoutFired => True
     | _ => targetPos (app (handle w ev)) = targetPos (app w)
     end
  /\ match ev with
     | TimeoutFired => True
     | _ => targetPos (app w) <> None -> targetPos (app (handle w ev)) <> None
     end.
Proof.
  each_event w ev; repeat split; auto; try discriminate; try congruence.
Qed.

(** X4: how status and view move.  Abort and the reset timer lead to IDLE
    and the dashboard, start-mission to CALCULATING and the map, a resolved
    analysis to ENROUTE_PATIENT, begin-transport to ENROUTE_HOSPITAL from
    whatever status it is issued in; an arrival leads to AT_PATIENT when its
    handler reads ENROUTE_PATIENT, to COMPLETED when it reads
    ENROUTE_HOSPITAL, and changes nothing otherwise; login leads to the
    dashboard; every other event leaves both alone, and no event leads to
    the login view. *)
Theorem status_and_view_transitions w ev :
  match ev with
  | AbortMission => status (app (handle w ev)) = IDLE
  | TimeoutFired =>
      (timers w = [] /\ status (app (handle w ev)) = status (app w))
      \/ (timers w <> [] /\ status (app (handle w ev)) = IDLE)
  | StartMission _ _ _ => status (app (handle w ev)) = CALCULATING
  | AnalysisResolved _ _ _ => status (app (handle w ev)) = ENROUTE_PATIENT
  | TransportToHospital _ _ => status (app (handle w ev)) = ENROUTE_HOSPITAL
  | Arrival k _ =>
      match rendered w k with
      | Some r =>
          (status r = ENROUTE_PATIENT
           /\ status (app (handle w ev)) = AT_PATIENT)
          \/ (status r = ENROUTE_HOSPITAL
              /\ status (app (handle w ev)) = COMPLETED)
          \/ (status r <> ENROUTE_PATIENT
              /\ status r <> ENROUTE_HOSPITAL
              /\ status (app (handle w ev)) = status (app w))
      | None => status (app (handle w ev)) = status (app w)
      end
  | _ => status (app (handle w ev)) = status (app w)
  end
  /\ match ev with
     | Login _ | AbortMission => view (app (handle w ev)) = DASHBOARD
     | TimeoutFired =>
         (timers w = [] /\ view (app (handle w ev)) = view (app w))
         \/ (timers w <> [] /\ view (app (handle w ev)) = DASHBOARD)
     | StartMission _ _ _ => view (app (handle w ev)) = MAP_NAVIGATION
     | _ => view (app (handle w ev)) = view (app w)
     end
  /\ (view (app w) <> LOGIN -> view (app (handle w ev)) <> LOGIN).
Proof.
  each_event w ev; repeat split; auto; try discriminate; try congruence;
    try (left; split; [reflexivity|congruence]);
    try (right; split; [discriminate|reflexivity]);
    try (right; left; split; [reflexivity|congruence]);
    try (right; right; repeat split; congruence).
Qed.

Lemma count_app f l1 l2 : count f (l1 ++ l2) = (count f l1 + count f l2)%nat.
Proof. unfold count. now rewrite filter_app, length_app. Qed.

Lemma handle_keeps_bookkeeping_inv w ev :
  enabled w ev = true -> bookkeeping_inv w -> bookkeeping_inv (handle w ev).
Proof.
  unfold bookkeeping_inv. intros Hen (H1 & H2 & H3).
  destruct (analysisCalls w) as [|c cs] eqn:Ec;
    each_event w ev;
    unfold enabled in Hen; rewrite ?Ec in *; try discriminate Hen;
    try match goal with E : timers w = _ |- _ => rewrite ?E in * end;
    try discriminate Hen;
    rewrite ?count_app, ?length_app in *;
    cbn [count filter isHospitalArrivalLog isStartLog isCorridorLog
         AILog.type AILog.message String.eqb Ascii.eqb Bool.eqb
         List.length tl List.app String.append] in *;
    repeat split; try lia; auto;
    try (apply Forall_app; split; [assumption|repeat constructor]).
Qed.

(** X5: in every reachable world the number of hospital arrivals in the
    log equals the number of completion alerts shown plus the number of
    reset timers still pending, every alert shown is the completion alert,
    and the corridor activations logged plus the analysis calls pending
    never exceed the mission starts logged. *)
Theorem arrivals_alerts_and_timers_balance w :
  reachable w ->
  count isHospitalArrivalLog (logs (app w))
  = (List.length (alerts w) + List.length (timers w))%nat
  /\ Forall (fun a => a = "Mission Successfully Completed.") (alerts w)
  /\ (count isCorridorLog (logs (app w)) + List.length (analysisCalls w)
      <= count isStartLog (logs (app w)))%nat.
Proof.
  apply (reachable_next_ind bookkeeping_inv).
  - repeat split; [constructor|simpl; lia].
  - intros w0 ev _ IH Hen.
    pose proof (handle_keeps_bookkeeping_inv w0 ev Hen IH) as H.
    unfold bookkeeping_inv, next in *.
    now rewrite app_commit, alerts_commit, timers_commit,
      analysisCalls_commit.
Qed.

Lemma handle_keeps_fixed_configuration w ev :
  fixed_configuration w -> fixed_configuration (handle w ev).
Proof.
  unfold fixed_configuration. intros (H1 & H2 & H3 & H4).
  assert (H5 : Forall (fun c => call_severity c = Critical
                               /\ call_traffic c = "Heavy Congestion")
                 (tl (analysisCalls w))).
  { destruct (analysisCalls w); [exact H4|]. now apply Forall_inv_tail in H4. }
  each_event w ev; repeat split; auto.
  apply Forall_app. split; [assumption|]. repeat constructor. assumption.
Qed.

(** X6: only the emergency type can be edited: in every reachable world
    the severity is Critical and the patient name and description are the
    initial ones, and every pending analysis call was made with severity
    Critical and the traffic hint "Heavy Congestion". *)
Theorem configuration_is_fixed_but_for_the_type w :
  reachable w ->
  EmergencyDetails.severity (emergency (app w)) = Critical
  /\ EmergencyDetails.patientName (emergency (app w)) = "John Doe"
  /\ EmergencyDetails.description (emergency (app w))
     = "Male, 55, chest pains, collapsed."
  /\ Forall (fun c => call_severity c = Critical
                      /\ call_traffic c = "Heavy Congestion")
       (analysisCalls w).
Proof.
  apply (reachable_next_ind fixed_configuration).
  - repeat split. constructor.
  - intros w0 ev _ IH _.
    pose proof (handle_keeps_fixed_configuration w0 ev IH) as H.
    unfold fixed_configuration, next in *.
    now rewrite app_commit, analysisCalls_commit.
Qed.

(** X7: the reset timer does not look at the mission it finds.  Whatever
    the status is when it fires, it shows the completion alert, sets IDLE and
    the dashboard, clears the target and resets distance and ETA; the
    ambulance moves to the target the timer captured, or stays when it
    captured none; log, speed and signal are left alone. *)
Theorem reset_timer_is_unconditional w t ts :
  timers w = t :: ts ->
  let w' := handle w TimeoutFired in
  status (app w') = IDLE
  /\ view (app w') = DASHBOARD
  /\ targetPos (app w') = None
  /\ distance (app w') = "0.0 km"
  /\ eta (app w') = "--:--"
  /\ ambulancePos (app w')
     = match timeout_targetPos t with
       | Some p => p
       | None => ambulancePos (app w)
       end
  /\ timers w' = ts
  /\ alerts w' = (alerts w ++ ["Mission Successfully Completed."])%list
  /\ logs (app w') = logs (app w)
  /\ speed (app w') = speed (app w)
  /\ trafficState (app w') = trafficState (app w)
  /\ showTransModal (app w') = showTransModal (app w)
  /\ analysisCalls w' = analysisCalls w.
Proof.
  intros Ht w'. subst w'. unfold_handlers. rewrite Ht.
  destruct (timeout_targetPos t); run_effects; rewrite Ht; repeat split.
Qed.

(** X8: every set-manual-location attempt, accepted or rejected, appends
    exactly one entry, of kind warning and with the stamp of the attempt, and
    changes nothing but the ambulance position and the log: the position
    stays or becomes the parsed pair, and every other state variable and all
    pending work are as before. *)
Theorem manual_location_always_logs_a_warning w st :
  exists p msg,
    handle w (ManualLocation st) =
    moved_and_logged w p
      [{| AILog.id := stamp_id st; AILog.timestamp := stamp_time st;
          AILog.message := msg; AILog.type := warning |}]
    /\ (p = ambulancePos (app w)
        \/ p = {| lat := parseFloat (manualLat (app w));
                  lng := parseFloat (manualLng (app w)) |}).
Proof.
  unfold_handlers.
  destruct (negb (isNaN _) && negb (isNaN _)); run_effects;
    eexists; eexists; (split; [reflexivity|]); auto.
Qed.

(** X9: a failed geolocation leaves the position as it is.  Neither the
    error callback (whose entry announces a default to the base station) nor
    a missing geolocation module changes the ambulance position, the
    coordinate inputs or anything else but the log: the first appends one
    warning, the second the info entry of the attempt and one warning.  An
    attempt with the module present only appends the info entry and leaves a
    request pending.  A fix, when it comes, sets the position to the
    reported pair and the inputs to its text. *)
Theorem geolocation_failure_keeps_position w st st1 st2 latitude longitude :
  handle w (GeolocationError st)
  = moved_and_logged (popGeoRequest w) (ambulancePos (app w))
      [{| AILog.id := stamp_id st; AILog.timestamp := stamp_time st;
          AILog.message := "GPS Signal weak. Defaulting to Base Station.";
          AILog.type := warning |}]
  /\ handle w (AutoLocation false st1 st2)
     = moved_and_logged w (ambulancePos (app w))
         [{| AILog.id := stamp_id st1; AILog.timestamp := stamp_time st1;
             AILog.message := "Initiating satellite triangulation...";
             AILog.type := info |};
          {| AILog.id := stamp_id st2; AILog.timestamp := stamp_time st2;
             AILog.message := "Geolocation module offline.";
             AILog.type := warning |}]
  /\ handle w (AutoLocation true st1 st2)
     = moved_and_logged (getCurrentPosition w) (ambulancePos (app w))
         [{| AILog.id := stamp_id st1; AILog.timestamp := stamp_time st1;
             AILog.message := "Initiating satellite triangulation...";
             AILog.type := info |}]
  /\ (manualLat (app (moved_and_logged w (ambulancePos (app w)) []))
      = manualLat (app w)
      /\ manualLng (app (moved_and_logged w (ambulancePos (app w)) []))
         = manualLng (app w)
      /\ geoRequests (popGeoRequest w) = Nat.pred (geoRequests w)
      /\ geoRequests (getCurrentPosition w) = S (geoRequests w))
  /\ (ambulancePos (app (handle w (GeolocationSuccess latitude longitude st)))
      = {| lat := latitude; lng := longitude |}
      /\ manualLat (app (handle w (GeolocationSuccess latitude longitude st)))
         = Number_toString latitude
      /\ manualLng (app (handle w (GeolocationSuccess latitude longitude st)))
         = Number_toString longitude).
Proof.
  unfold_handlers. unfold moved_and_logged. cbv iota.
  cbv [seq addLog setLogs update popGeoRequest getCurrentPosition].
  run_effects. rewrite <- ?app_assoc. repeat split.
Qed.

(** ** What the map view can rely on *)

Lemma handle_keeps_map_target w ev :
  (view (app w) = MAP_NAVIGATION -> targetPos (app w) <> None) ->
  view (app (handle w ev)) = MAP_NAVIGATION ->
  targetPos (app (handle w ev)) <> None.
Proof.
  intros IH. each_event w ev; intros Hv; try discriminate; auto.
Qed.

Lemma handle_keeps_modal_at_patient w ev :
  (status (app w) = AT_PATIENT -> showTransModal (app w) = true) ->
  status (app (handle w ev)) = AT_PATIENT ->
  showTransModal (app (handle w ev)) = true.
Proof.
  intros IH. each_event w ev; intros Hs; try discriminate; auto;
    try (apply IH; congruence).
Qed.

(** X10: whenever begin-transport can be issued, a target is set, so the
    branch of the handler that skips the move is never taken: the ambulance
    moves to the target that the hospital then replaces. *)
Theorem begin_transport_always_has_a_target w st1 st2 :
  reachable w -> enabled w (TransportToHospital st1 st2) = true ->
  exists p, targetPos (app w) = Some p
            /\ ambulancePos (app (handle w (TransportToHospital st1 st2))) = p.
Proof.
  intros Hr Hen.
  assert (Hinv : view (app w) = MAP_NAVIGATION -> targetPos (app w) <> None).
  { clear Hen. revert w Hr.
    apply (reachable_next_ind
             (fun w => view (app w) = MAP_NAVIGATION ->
                       targetPos (app w) <> None)).
    - discriminate.
    - intros w ev _ IH _. unfold next. rewrite app_commit.
      now apply handle_keeps_map_target. }
  unfold enabled in Hen. apply andb_prop in Hen as [Hv _].
  assert (Hview : view (app w) = MAP_NAVIGATION)
    by (destruct (view (app w)); [discriminate Hv..|reflexivity]).
  specialize (Hinv Hview).
  destruct (targetPos (app w)) as [p|] eqn:Et; [|congruence].
  exists p. split; [reflexivity|].
  unfold_handlers. rewrite Et. run_effects. reflexivity.
Qed.

(** X11: while the status is AT_PATIENT the confirmation that offers
    begin-transport is open. *)
Theorem at_patient_offers_transport w :
  reachable w -> status (app w) = AT_PATIENT -> showTransModal (app w) = true.
Proof.
  revert w.
  apply (reachable_next_ind
           (fun w => status (app w) = AT_PATIENT ->
                     showTransModal (app w) = true)).
  - discriminate.
  - intros w ev _ IH _. unfold next. rewrite app_commit.
    now apply handle_keeps_modal_at_patient.
Qed.

(** ** Numbers read by [parseFloat] *)

(** Rounding an exact value gives a valid binary64 value, never NaN. *)
Lemma binary_round_aux_valid sx mx ex :
  ex <= fexp prec emax (Z.pos (digits2_pos mx) + ex) ->
  valid_binary (binary_round_aux prec emax sx (Z.pos mx) ex loc_Exact) = true
  /\ binary_round_aux prec emax sx (Z.pos mx) ex loc_Exact <> S754_nan.
Proof.
  set (f := fexp prec emax (Z.pos (digits2_pos mx) + ex)). intros Hf.
  pose proof (digits2_pos_bounds mx) as Hd.
  assert (Hfd : (f = Z.pos (digits2_pos mx) + ex - 53 \/ f = -1074)
                /\ Z.pos (digits2_pos mx) + ex - 53 <= f /\ -1074 <= f).
  { subst f. rewrite fexp_spec. lia. }
  destruct Hfd as (Hfc & Hfd1 & Hfd2).
  unfold binary_round_aux, shr_fexp.
  change (shr_record_of_loc (Z.pos mx) loc_Exact)
    with (Build_shr_record (Z.pos mx) false false).
  change (Zdigits2 (Z.pos mx)) with (Z.pos (digits2_pos mx)). fold f.
  destruct (shr_exact_spec (Z.pos mx) ex (f - ex) ltac:(lia)) as (H1 & H2 & _).
  rewrite Z.max_l in H1, H2 by lia.
  destruct (shr (Build_shr_record (Z.pos mx) false false) ex (f - ex))
    as [mrs' e'].
  cbn [fst snd] in H1, H2.
  assert (He' : e' = f) by lia. clear H2. subst e'.
  set (m1 := Z.pos mx / 2 ^ (f - ex)) in *.
  assert (Hpow : 0 < 2 ^ (f - ex)) by (apply Z.pow_pos_nonneg; lia).
  assert (Hm1 : 0 <= m1 < 2 ^ 53).
  { split; [apply Z.div_pos; lia|].
    apply Z.div_lt_upper_bound; [lia|].
    rewrite <- Z.pow_add_r by lia.
    apply Z.lt_le_trans with (2 ^ Z.pos (digits2_pos mx)); [lia|].
    apply Z.pow_le_mono_r; lia. }
  assert (Hm1' : f <> -1074 -> 2 ^ 52 <= m1).
  { intros Hn. apply Z.div_le_lower_bound; [lia|].
    rewrite <- Z.pow_add_r by lia.
    replace (f - ex + 52) with (Z.pos (digits2_pos mx) - 1) by lia. lia. }
  destruct (round_nearest_even_range (shr_m mrs') (loc_of_shr_record mrs'))
    as [Hr1 _].
  rewrite H1 in Hr1 |- *.
  set (m2 := round_nearest_even m1 (loc_of_shr_record mrs')) in *.
  change (shr_record_of_loc m2 loc_Exact) with (Build_shr_record m2 false false).
  destruct (shr_exact_spec m2 f (fexp prec emax (Zdigits2 m2 + f) - f) ltac:(lia))
    as (G1 & G2 & _).
  destruct (shr (Build_shr_record m2 false false) f
              (fexp prec emax (Zdigits2 m2 + f) - f)) as [mrs'' e''].
  cbn [fst snd] in G1, G2. rewrite G1.
  rewrite fexp_spec in G1, G2 |- *.
  destruct m2 as [|p2|p2] eqn:Em2; [| |lia].
  - rewrite Z.div_0_l by (apply Z.pow_nonzero; lia).
    split; [reflexivity|discriminate].
  - cbn [Zdigits2] in *.
    destruct (Z.eq_dec (Z.pos p2) (2 ^ 53)) as [Htop|Htop].
    + assert (Hd2 : Z.pos (digits2_pos p2) = 54).
      { rewrite digits2_pos_log2, Htop, Z.log2_pow2; lia. }
      rewrite Hd2 in *.
      replace (Z.max (Z.max (54 + f - 53) (-1074) - f) 0) with 1 in * by lia.
      rewrite Htop. change (2 ^ 53 / 2 ^ 1) with (Z.pos (2 ^ 52)).
      cbv beta iota.
      destruct (e'' <=? emax - prec) eqn:Ee;
        [|split; [reflexivity|discriminate]].
      split; [|discriminate].
      unfold valid_binary, SpecFloat.valid_binary, bounded, canonical_mantissa.
      rewrite Ee, andb_true_r. apply Z.eqb_eq. rewrite fexp_spec.
      change (Z.pos (digits2_pos (2 ^ 52))) with 53. lia.
    + assert (Hd2 : Z.pos (digits2_pos p2) <= 53).
      { apply digits2_pos_le; lia. }
      assert (Hd3 : f <> -1074 -> 52 < Z.pos (digits2_pos p2)).
      { intros Hn. apply digits2_pos_ge; [lia|]. specialize (Hm1' Hn). lia. }
      replace (Z.max (Z.max (Z.pos (digits2_pos p2) + f - 53) (-1074) - f) 0)
        with 0 in * by lia.
      rewrite Z.div_1_r. cbv beta iota.
      destruct (e'' <=? emax - prec) eqn:Ee;
        [|split; [reflexivity|discriminate]].
      split; [|discriminate].
      unfold valid_binary, SpecFloat.valid_binary, bounded, canonical_mantissa.
      rewrite Ee, andb_true_r. apply Z.eqb_eq. rewrite fexp_spec. lia.
Qed.

Lemma binary_normalize_valid z e :
  valid_binary (binary_normalize prec emax z e false) = true
  /\ binary_normalize prec emax z e false <> S754_nan.
Proof.
  assert (H : forall sx m,
             valid_binary (binary_round prec emax sx m e) = true
             /\ binary_round prec emax sx m e <> S754_nan).
  { intros sx m. unfold binary_round.
    pose proof (shl_align_spec m e
                  (fexp prec emax (Z.pos (digits2_pos m) + e))) as Hal.
    destruct (shl_align m e (fexp prec emax (Z.pos (digits2_pos m) + e)))
      as [mz ez].
    destruct Hal as (_ & Hle & _ & _ & Hdg).
    apply binary_round_aux_valid. rewrite Hdg. exact Hle. }
  destruct z as [|p|p]; cbn [binary_normalize].
  - split; [reflexivity|discriminate].
  - apply H.
  - apply H.
Qed.

Lemma SFeqb_refl x : x <> S754_nan -> SFeqb x x = true.
Proof.
  intros Hx. unfold SFeqb, SFcompare.
  destruct x as [s|s| |s m e].
  - reflexivity.
  - destruct s; reflexivity.
  - congruence.
  - rewrite Z.compare_refl, Pos.compare_cont_refl. destruct s; reflexivity.
Qed.

(** A valid value other than NaN is not NaN as a number. *)
Lemma isNaN_SF2Prim x :
  valid_binary x = true -> x <> S754_nan -> isNaN (SF2Prim x) = false.
Proof.
  intros Hv Hx. unfold isNaN, is_nan.
  rewrite eqb_spec, (Prim2SF_SF2Prim x Hv), (SFeqb_refl x Hx). reflexivity.
Qed.

Lemma isNaN_opp x : isNaN x = false -> isNaN (- x)%float = false.
Proof.
  unfold isNaN, is_nan. rewrite !eqb_spec, opp_spec.
  destruct (Prim2SF x) as [s|s| |s m e]; cbn [SFopp]; intros H.
  - reflexivity.
  - destruct s; reflexivity.
  - discriminate H.
  - rewrite SFeqb_refl by discriminate. reflexivity.
Qed.

Lemma isNaN_number_of_decimal m e10 : isNaN (number_of_decimal m e10) = false.
Proof.
  unfold number_of_decimal, number_of_Z.
  destruct (0 <=? e10); apply isNaN_SF2Prim; apply binary_normalize_valid.
Qed.

(** [decimalDigits] only adds to the count of digits read. *)
Lemma decimalDigits_count s : forall acc n,
  n <= snd (fst (decimalDigits s acc n)).
Proof.
  induction s as [|c r IH]; intros acc n; cbn [decimalDigits].
  - simpl. lia.
  - destruct (digitValue c) as [d|]; [|simpl; lia].
    specialize (IH (10 * acc + d) (n + 1)). lia.
Qed.

Lemma digit_is_plain c d :
  digitValue c = Some d ->
  isStrWhiteSpaceChar c = false
  /\ Ascii.eqb c "-" = false /\ Ascii.eqb c "+" = false
  /\ Ascii.eqb c "I" = false.
Proof.
  destruct c as [[] [] [] [] [] [] [] []]; vm_compute; intros H;
    try discriminate H; repeat split.
Qed.

(** An input that starts with a decimal digit is read as a number, whatever
    follows the digits. *)
Lemma parseFloat_digit_prefix c d rest :
  digitValue c = Some d -> isNaN (parseFloat (String c rest)) = false.
Proof.
  intros Hc. destruct (digit_is_plain c d Hc) as (Hw & Hm & Hp & Hi).
  unfold parseFloat. cbn [trimStart]. rewrite Hw, Hm, Hp.
  unfold strUnsignedDecimalLiteral.
  cbn [String.prefix]. 
  replace (if Ascii.ascii_dec "I" c then String.prefix "nfinity" rest else false)
    with false.
  2: { destruct (Ascii.ascii_dec "I" c) as [<-|]; [discriminate Hi|reflexivity]. }
  pose proof (decimalDigits_count (String c rest) 0 0) as Hn.
  cbn [decimalDigits] in Hn |- *. rewrite Hc in Hn |- *.
  pose proof (decimalDigits_count rest (10 * 0 + d) (0 + 1)) as Hn1.
  destruct (decimalDigits rest (10 * 0 + d) (0 + 1)) as [[iv ic] r1].
  cbn [fst snd] in Hn1.
  destruct (match r1 with
            | String c0 r => if Ascii.eqb c0 "." then decimalDigits r 0 0 else (0, 0, r1)
            | EmptyString => (0, 0, r1)
            end) as [[fv fc] r2].
  replace (ic =? 0) with false by (symmetry; apply Z.eqb_neq; lia).
  cbn [andb]. apply isNaN_number_of_decimal.
Qed.

Lemma strUnsignedDecimalLiteral_Infinity rest :
  strUnsignedDecimalLiteral ("Infinity" ++ rest) = Some infinity.
Proof.
  unfold strUnsignedDecimalLiteral.
  replace (String.prefix "Infinity" ("Infinity" ++ rest)) with true;
    [reflexivity|].
  cbn. now destruct rest.
Qed.

Lemma parseFloat_Infinity rest :
  parseFloat ("Infinity" ++ rest) = infinity
  /\ parseFloat ("-Infinity" ++ rest) = neg_infinity.
Proof.
  pose proof (strUnsignedDecimalLiteral_Infinity rest) as H.
  split.
  - unfold parseFloat.
    change (trimStart ("Infinity" ++ rest)) with ("Infinity" ++ rest).
    change ("Infinity" ++ rest) with (String "I" ("nfinity" ++ rest)) at 1.
    cbv iota.
    change (Ascii.eqb "I" "-") with false. change (Ascii.eqb "I" "+") with false.
    cbv iota. rewrite H. reflexivity.
  - unfold parseFloat.
    change (trimStart ("-Infinity" ++ rest))
      with (String "-" ("Infinity" ++ rest)).
    cbv iota. change (Ascii.eqb "-" "-") with true. cbv iota.
    rewrite H. reflexivity.
Qed.

(** X12: set-manual-location accepts whatever starts with a decimal digit.
    When both inputs begin with a digit, whatever follows the digits, both
    parse to numbers, the ambulance position becomes the parsed pair and the
    entry logged reports it with four decimals. *)
Theorem manual_location_accepts_digit_prefixed w st c1 d1 r1 c2 d2 r2 :
  manualLat (app w) = String c1 r1 -> digitValue c1 = Some d1 ->
  manualLng (app w) = String c2 r2 -> digitValue c2 = Some d2 ->
  let lat := parseFloat (String c1 r1) in
  let lng := parseFloat (String c2 r2) in
  let w' := handle w (ManualLocation st) in
  isNaN lat = false /\ isNaN lng = false
  /\ ambulancePos (app w') = {| lat := lat; lng := lng |}
  /\ logs (app w') =
     (logs (app w) ++
      [{| AILog.id := stamp_id st; AILog.timestamp := stamp_time st;
          AILog.message := "Manual coordinates set: " ++ Number_toFixed lat 4
                           ++ ", " ++ Number_toFixed lng 4;
          AILog.type := warning |}])%list.
Proof.
  intros Hla Hc1 Hln Hc2 la ln w'.
  pose proof (parseFloat_digit_prefix c1 d1 r1 Hc1) as N1.
  pose proof (parseFloat_digit_prefix c2 d2 r2 Hc2) as N2.
  fold la in N1. fold ln in N2.
  subst w'. unfold_handlers. rewrite Hla, Hln. fold la ln.
  rewrite N1, N2. cbn [negb andb]. run_effects. repeat split.
Qed.

(** X13: the guard of set-manual-location only excludes NaN: the inputs
    "Infinity" and "-Infinity", with anything after them, are accepted and
    put the ambulance at an infinite coordinate. *)
Theorem manual_location_accepts_infinity w st rest1 rest2 :
  manualLat (app w) = "Infinity" ++ rest1 ->
  manualLng (app w) = "-Infinity" ++ rest2 ->
  ambulancePos (app (handle w (ManualLocation st)))
  = {| lat := infinity; lng := neg_infinity |}.
Proof.
  intros Hla Hln. unfold_handlers. rewrite Hla, Hln.
  rewrite (proj1 (parseFloat_Infinity rest1)), (proj2 (parseFloat_Infinity rest2)).
  change (isNaN infinity) with false. change (isNaN neg_infinity) with false.
  cbn [negb andb]. run_effects. reflexivity.
Qed.

(** ** Numbers written by [toString] and read back by [parseFloat] *)

Lemma digitValue_of_digit z :
  digitValue (ascii_of_N (Z.to_N (48 + z mod 10))) = Some (z mod 10).
Proof.
  pose proof (Z.mod_pos_bound z 10 ltac:(lia)) as H.
  assert (C : z mod 10 = 0 \/ z mod 10 = 1 \/ z mod 10 = 2 \/ z mod 10 = 3
              \/ z mod 10 = 4 \/ z mod 10 = 5 \/ z mod 10 = 6 \/ z mod 10 = 7
              \/ z mod 10 = 8 \/ z mod 10 = 9) by lia.
  repeat (destruct C as [C|C]; [rewrite C; reflexivity|]).
  rewrite C. reflexivity.
Qed.

Lemma startsWithDigit_app s t : startsWithDigit s -> startsWithDigit (s ++ t).
Proof.
  intros (c & d & r & -> & Hd). exists c, d, (r ++ t). split; [reflexivity|exact Hd].
Qed.

Lemma startsWithDigit_substring s n :
  startsWithDigit s -> startsWithDigit (substring 0 (S n) s).
Proof.
  intros (c & d & r & -> & Hd). exists c, d, (substring 0 n r).
  split; [reflexivity|exact Hd].
Qed.

Lemma digitsOfZ_startsWithDigit fuel : forall z acc,
  startsWithDigit (digitsOfZ fuel z acc).
Proof.
  induction fuel as [|fuel IH]; intros z acc; cbn [digitsOfZ].
  - eexists _, _, _. split; [reflexivity|apply digitValue_of_digit].
  - destruct (z <? 10); [|apply IH].
    eexists _, _, _. split; [reflexivity|apply digitValue_of_digit].
Qed.

Lemma formatDigits_startsWithDigit s k n : startsWithDigit (formatDigits s k n).
Proof.
  pose proof (digitsOfZ_startsWithDigit (Z.to_nat (Z.log2 s)) s EmptyString)
    as Hds.
  unfold formatDigits. fold (stringOfZ s) in Hds.
  destruct ((k <=? n) && (n <=? 21)).
  { now apply startsWithDigit_app. }
  destruct ((0 <? n) && (n <=? 21)) eqn:E2.
  { apply startsWithDigit_app.
    apply andb_prop in E2 as [E2 _]. apply Z.ltb_lt in E2.
    destruct (Z.to_nat n) as [|n'] eqn:En; [lia|].
    now apply startsWithDigit_substring. }
  destruct ((-6 <? n) && (n <=? 0)).
  { exists "0"%char, 0. eexists. split; reflexivity. }
  destruct (k =? 1).
  { now apply startsWithDigit_app. }
  apply startsWithDigit_app. now apply (startsWithDigit_substring _ 0).
Qed.

Lemma parseFloat_minus_digit c d rest :
  digitValue c = Some d ->
  isNaN (parseFloat (String "-" (String c rest))) = false.
Proof.
  intros Hc.
  pose proof (parseFloat_digit_prefix c d rest Hc) as H.
  destruct (digit_is_plain c d Hc) as (Hw & Hm & Hp & Hi).
  unfold parseFloat in *. cbn [trimStart] in *. rewrite Hw, Hm, Hp in H.
  change (isStrWhiteSpaceChar "-") with false.
  change (Ascii.eqb "-" "-") with true. cbv iota.
  destruct (strUnsignedDecimalLiteral (String c rest)) as [x|].
  - now apply isNaN_opp.
  - discriminate H.
Qed.

Lemma isNaN_spec x : isNaN x = false -> Prim2SF x <> S754_nan.
Proof.
  unfold isNaN, is_nan. rewrite eqb_spec. intros H E. rewrite E in H.
  discriminate H.
Qed.

(** What [toString] writes for a number other than NaN, [parseFloat] reads
    as a number. *)
Lemma parseFloat_toString_is_number x :
  isNaN x = false -> isNaN (parseFloat (Number_toString x)) = false.
Proof.
  intros Hx. apply isNaN_spec in Hx. unfold Number_toString.
  destruct (Prim2SF x) as [s|s| |sg m e].
  - vm_compute. reflexivity.
  - destruct s.
    + change "-Infinity" with ("-Infinity" ++ "").
      rewrite (proj2 (parseFloat_Infinity "")). reflexivity.
    + change "Infinity" with ("Infinity" ++ "").
      rewrite (proj1 (parseFloat_Infinity "")). reflexivity.
  - congruence.
  - cbv zeta.
    destruct (if PrimFloat.eqb (number_of_decimal 1 _) (abs x) then _ else _)
      as [[s k] n'].
    destruct (formatDigits_startsWithDigit s k n') as (c & d & r & -> & Hd).
    destruct sg.
    + now apply (parseFloat_minus_digit c d r).
    + now apply (parseFloat_digit_prefix c d r).
Qed.

(** X14: a position fix always leaves coordinate inputs that
    set-manual-location accepts.  After a fix on coordinates other than NaN
    the two inputs hold the texts of the coordinates, both read back as
    numbers, and a set-manual-location that follows sets the position to
    the pair read back and logs it, never the invalid-coordinates entry. *)
Theorem fix_then_manual_location_is_accepted w latitude longitude st st' :
  isNaN latitude = false -> isNaN longitude = false ->
  let w1 := handle w (GeolocationSuccess latitude longitude st) in
  let w2 := handle w1 (ManualLocation st') in
  let lat' := parseFloat (Number_toString latitude) in
  let lng' := parseFloat (Number_toString longitude) in
  manualLat (app w1) = Number_toString latitude
  /\ manualLng (app w1) = Number_toString longitude
  /\ isNaN lat' = false /\ isNaN lng' = false
  /\ ambulancePos (app w2) = {| lat := lat'; lng := lng' |}
  /\ exists entry,
       logs (app w2) = (logs (app w1) ++ [entry])%list
       /\ AILog.message entry =
          "Manual coordinates set: " ++ Number_toFixed lat' 4
          ++ ", " ++ Number_toFixed lng' 4.
Proof.
  intros Hla Hlo w1 w2 la ln.
  pose proof (parseFloat_toString_is_number latitude Hla) as N1.
  pose proof (parseFloat_toString_is_number longitude Hlo) as N2.
  fold la in N1. fold ln in N2.
  assert (E1 : manualLat (app w1) = Number_toString latitude).
  { subst w1. unfold_handlers. run_effects. reflexivity. }
  assert (E2 : manualLng (app w1) = Number_toString longitude).
  { subst w1. unfold_handlers. run_effects. reflexivity. }
  repeat (split; [assumption|]).
  subst w2. generalize dependent w1. intros w1 E1 E2.
  unfold_handlers. rewrite E1, E2. fold la ln. rewrite N1, N2.
  cbn [negb andb]. run_effects. split; [reflexivity|].
  eexists. split; reflexivity.
Qed.

(** ** The random offset of [startMission] *)

Lemma Prim2SF_half : Prim2SF 0.5 = SFhalf.
Proof. vm_compute. reflexivity. Qed.

Lemma Prim2SF_002 : Prim2SF 0.02 = SF002.
Proof. vm_compute. reflexivity. Qed.

Lemma Prim2SF_001 : Prim2SF 0.01 = SF001.
Proof. vm_compute. reflexivity. Qed.

Lemma Prim2SF_neg_001 : Prim2SF (-0.01) = SFopp SF001.
Proof. vm_compute. reflexivity. Qed.

(** Rounding keeps an exact value whose magnitude is at most that of a
    binary64 value [hm * 2 ^ he] at most that value. *)
Lemma binary_round_aux_le_float sx mx ex hm he :
  ex <= fexp prec emax (Z.pos (digits2_pos mx) + ex) ->
  -1200 <= ex -> -1074 <= he <= 900 -> Z.pos hm < 2 ^ 53 ->
  Z.pos mx * 2 ^ (ex + 1200) <= Z.pos hm * 2 ^ (he + 1200) ->
  match binary_round_aux prec emax sx (Z.pos mx) ex loc_Exact with
  | S754_zero s => s = sx
  | S754_finite s m e =>
      s = sx /\ -1074 <= e /\ ticks m e <= ticks hm he
  | _ => False
  end.
Proof.
  set (f := fexp prec emax (Z.pos (digits2_pos mx) + ex)).
  intros Hf Hex Hhe Hhm Hle.
  pose proof (digits2_pos_bounds mx) as Hd.
  assert (P1 : 0 < 2 ^ (ex + 1200)) by (apply Z.pow_pos_nonneg; lia).
  assert (P4 : 0 < 2 ^ (he + 1200)) by (apply Z.pow_pos_nonneg; lia).
  assert (Hlt : Z.pos mx * 2 ^ (ex + 1200) < 2 ^ (53 + (he + 1200))).
  { rewrite (Z.pow_add_r 2 53 (he + 1200)) by lia. nia. }
  assert (Hexhe : ex < 53 + he).
  { destruct (Z_lt_ge_dec ex (53 + he)) as [|Hge]; [assumption|exfalso].
    assert (2 ^ (53 + (he + 1200)) <= 2 ^ (ex + 1200))
      by (apply Z.pow_le_mono_r; lia).
    nia. }
  assert (Hmx : Z.pos mx < 2 ^ (53 + he - ex)).
  { apply Z.mul_lt_mono_pos_r with (2 ^ (ex + 1200)); [exact P1|].
    rewrite <- (Z.pow_add_r 2 (53 + he - ex) (ex + 1200)) by lia.
    replace (53 + he - ex + (ex + 1200)) with (53 + (he + 1200)) by lia.
    exact Hlt. }
  assert (Hdg : Z.pos (digits2_pos mx) <= 53 + he - ex).
  { apply digits2_pos_le; [|exact Hmx].
    destruct (Z_le_gt_dec 0 (53 + he - ex)); [assumption|].
    rewrite Z.pow_neg_r in Hmx by lia. lia. }
  assert (Hfb : -1074 <= f <= he).
  { subst f. rewrite fexp_spec. lia. }
  pose proof (binary_round_aux_bounds sx mx ex 0 (Z.pos hm * 2 ^ (he - f))) as H.
  cbv zeta in H. fold f in H.
  assert (P2 : 0 < 2 ^ (he - f)) by (apply Z.pow_pos_nonneg; lia).
  assert (P3 : 0 < 2 ^ (f - ex)) by (apply Z.pow_pos_nonneg; lia).
  assert (E1 : 2 ^ (he + 1200) = 2 ^ (he - f) * 2 ^ (f - ex) * 2 ^ (ex + 1200)).
  { rewrite <- !Z.pow_add_r by lia. f_equal; lia. }
  assert (B : Z.pos mx <= Z.pos hm * 2 ^ (he - f) * 2 ^ (f - ex)).
  { apply Z.mul_le_mono_pos_r with (2 ^ (ex + 1200)); [exact P1|].
    rewrite E1 in Hle. lia. }
  assert (Hov : Z.pos hm * 2 ^ (he - f) < 2 ^ (971 - f)).
  { apply Z.lt_le_trans with (2 ^ 53 * 2 ^ (he - f)); [nia|].
    rewrite <- Z.pow_add_r by lia. apply Z.pow_le_mono_r; lia. }
  specialize (H Hf ltac:(lia) ltac:(lia) Hov).
  destruct (binary_round_aux prec emax sx (Z.pos mx) ex loc_Exact)
    as [s|s| |s m e]; try tauto.
  destruct H as (-> & He & _ & Hhi). repeat split; [lia|].
  unfold ticks.
  replace (e + 1074) with ((e - f) + (f + 1074)) by lia.
  replace (he + 1074) with ((he - f) + (f + 1074)) by lia.
  rewrite (Z.pow_add_r 2 (e - f) (f + 1074)),
    (Z.pow_add_r 2 (he - f) (f + 1074)), !Z.mul_assoc by lia.
  apply Z.mul_le_mono_nonneg_r; [apply Z.pow_nonneg; lia|exact Hhi].
Qed.

(** The same for [binary_round], which first aligns the mantissa. *)
Lemma binary_round_le_float sx p ez hm he :
  -1074 <= ez -> -1074 <= he <= 900 -> Z.pos hm < 2 ^ 53 ->
  ticks p ez <= ticks hm he ->
  match binary_round prec emax sx p ez with
  | S754_zero s => s = sx
  | S754_finite s m e =>
      s = sx /\ -1074 <= e /\ ticks m e <= ticks hm he
  | _ => False
  end.
Proof.
  intros Hez Hhe Hhm Hle. unfold binary_round.
  set (F := fexp prec emax (Z.pos (digits2_pos p) + ez)).
  pose proof (shl_align_spec p ez F) as Hal.
  destruct (shl_align p ez F) as [mz ez'].
  destruct Hal as (Ha1 & Ha2 & Ha0 & Ha3 & Ha4).
  assert (HF : -1074 <= F) by (subst F; rewrite fexp_spec; lia).
  apply binary_round_aux_le_float; try lia.
  - rewrite Ha4. exact Ha2.
  - rewrite Ha3, <- Z.mul_assoc, <- Z.pow_add_r by lia.
    replace (ez - ez' + (ez' + 1200)) with ((ez + 1074) + 126) by lia.
    replace (he + 1200) with ((he + 1074) + 126) by lia.
    rewrite (Z.pow_add_r 2 (ez + 1074) 126),
      (Z.pow_add_r 2 (he + 1074) 126), !Z.mul_assoc by lia.
    apply Z.mul_le_mono_nonneg_r; [lia|exact Hle].
Qed.

(** A number in [0, 1) less one half is zero or of magnitude at most one
    half. *)
Lemma sub_half_bounds m e :
  -1074 <= e < 0 -> Z.pos m < 2 ^ (- e) ->
  match SFsub prec emax (S754_finite false m e) SFhalf with
  | S754_zero _ => True
  | S754_finite s m' e' =>
      -1074 <= e' /\ ticks m' e' <= ticks 4503599627370496 (-53)
  | _ => False
  end.
Proof.
  intros He Hm. unfold SFhalf, SFsub. cbn [cond_Zopp].
  set (ez := Z.min e (-53)).
  rewrite (shl_align_down m e ez), (shl_align_down 4503599627370496 (-53) ez)
    by lia.
  assert (Hez : -1074 <= ez <= -53) by lia.
  assert (P0 : 0 < 2 ^ (ez + 1074)) by (apply Z.pow_pos_nonneg; lia).
  set (D := Z.pos m * 2 ^ (e - ez) - 4503599627370496 * 2 ^ (-53 - ez)).
  assert (HD : D * 2 ^ (ez + 1074) = ticks m e - ticks 4503599627370496 (-53)).
  { unfold D, ticks.
    rewrite Z.mul_sub_distr_r, <- !Z.mul_assoc, <- !Z.pow_add_r by lia.
    replace (e - ez + (ez + 1074)) with (e + 1074) by lia.
    replace (-53 - ez + (ez + 1074)) with (-53 + 1074) by lia.
    reflexivity. }
  assert (Hh : ticks 4503599627370496 (-53) = 2 ^ 1073) by reflexivity.
  assert (Ht : 0 < ticks m e < 2 ^ 1074).
  { unfold ticks. split.
    - apply Z.mul_pos_pos; [lia|]. apply Z.pow_pos_nonneg; lia.
    - apply Z.lt_le_trans with (2 ^ (- e) * 2 ^ (e + 1074)).
      + apply Z.mul_lt_mono_pos_r; [apply Z.pow_pos_nonneg; lia|exact Hm].
      + rewrite <- Z.pow_add_r by lia.
        replace (- e + (e + 1074)) with 1074 by lia. lia. }
  assert (E2 : 2 ^ 1074 = 2 * 2 ^ 1073) by reflexivity.
  destruct D as [|p|p] eqn:ED; cbn [binary_normalize].
  - exact I.
  - pose proof (binary_round_le_float false p ez 4503599627370496 (-53)
                  ltac:(lia) ltac:(lia) ltac:(reflexivity)) as H.
    assert (Hp : ticks p ez <= ticks 4503599627370496 (-53)).
    { unfold ticks at 1. rewrite HD. lia. }
    specialize (H Hp).
    destruct (binary_round prec emax false p ez) as [s|s| |s m' e'];
      try tauto.
  - pose proof (binary_round_le_float true p ez 4503599627370496 (-53)
                  ltac:(lia) ltac:(lia) ltac:(reflexivity)) as H.
    assert (Hp : ticks p ez <= ticks 4503599627370496 (-53)).
    { unfold ticks at 1.
      replace (Z.pos p * 2 ^ (ez + 1074)) with (- (Z.neg p * 2 ^ (ez + 1074)))
        by (rewrite <- Z.mul_opp_l; reflexivity).
      rewrite HD. lia. }
    specialize (H Hp).
    destruct (binary_round prec emax true p ez) as [s|s| |s m' e'];
      try tauto.
Qed.

(** A number of magnitude at most one half times 0.02 is zero or of
    magnitude at most 0.01. *)
Lemma mul_002_bounds s m e :
  -1074 <= e -> ticks m e <= ticks 4503599627370496 (-53) ->
  match SFmul prec emax (S754_finite s m e) SF002 with
  | S754_zero _ => True
  | S754_finite _ m' e' =>
      -1074 <= e' /\ ticks m' e' <= ticks 5764607523034235 (-59)
  | _ => False
  end.
Proof.
  intros He Ht. unfold SF002, SFmul.
  set (mc := 5764607523034235%positive).
  pose proof (digits2_pos_bounds (m * mc)) as Hd.
  assert (Hmc : 2 ^ 52 <= Z.pos mc < 2 ^ 53)
    by (vm_compute; split; [discriminate|reflexivity]).
  assert (Hd1 : 52 < Z.pos (digits2_pos (m * mc))).
  { apply digits2_pos_ge; [lia|]. rewrite Pos2Z.inj_mul. nia. }
  pose proof (binary_round_aux_le_float (xorb s false) (m * mc) (e + -58)
                mc (-59)) as H.
  assert (Hf : e + -58 <= fexp prec emax (Z.pos (digits2_pos (m * mc)) + (e + -58))).
  { rewrite fexp_spec. lia. }
  assert (Hv : Z.pos (m * mc) * 2 ^ (e + -58 + 1200)
               <= Z.pos mc * 2 ^ (-59 + 1200)).
  { rewrite Pos2Z.inj_mul.
    replace (e + -58 + 1200) with ((e + 1074) + 68) by lia.
    rewrite Z.pow_add_r by lia.
    change (2 ^ (-59 + 1200)) with (2 ^ 1073 * 2 ^ 68).
    change (ticks 4503599627370496 (-53)) with (2 ^ 1073) in Ht.
    unfold ticks in Ht.
    assert (0 < 2 ^ 68) by reflexivity.
    replace (Z.pos m * Z.pos mc * (2 ^ (e + 1074) * 2 ^ 68))
      with (Z.pos mc * 2 ^ 68 * (Z.pos m * 2 ^ (e + 1074))) by ring.
    replace (Z.pos mc * (2 ^ 1073 * 2 ^ 68))
      with (Z.pos mc * 2 ^ 68 * 2 ^ 1073) by ring.
    apply Z.mul_le_mono_nonneg_l; [lia|exact Ht]. }
  specialize (H Hf ltac:(lia) ltac:(lia) ltac:(lia) Hv).
  destruct (binary_round_aux prec emax (xorb s false) (Z.pos (m * mc))
              (e + -58) loc_Exact) as [s'|s'| |s' m' e']; try tauto.
Qed.

(** Comparison with a normal binary64 value [hm * 2 ^ he], from a bound on
    the magnitude. *)
Lemma SFleb_magnitude x hm he :
  valid_binary x = true ->
  2 ^ 52 <= Z.pos hm < 2 ^ 53 -> -1074 <= he ->
  match x with
  | S754_zero _ => True
  | S754_finite _ m e => -1074 <= e /\ ticks m e <= ticks hm he
  | _ => False
  end ->
  SFleb (S754_finite true hm he) x = true
  /\ SFleb x (S754_finite false hm he) = true.
Proof.
  intros Hv Hhm Hhe Hx. destruct x as [s|s| |s m e]; try contradiction.
  - split; reflexivity.
  - destruct Hx as [He Ht].
    pose proof (digits2_pos_bounds m) as Hd.
    assert (Hc : fexp prec emax (Z.pos (digits2_pos m) + e) = e).
    { unfold valid_binary, SpecFloat.valid_binary, bounded,
        canonical_mantissa in Hv.
      apply andb_prop in Hv as [Hc _]. apply Z.eqb_eq in Hc. exact Hc. }
    rewrite fexp_spec in Hc.
    unfold ticks in Ht.
    assert (Hle : e <= he).
    { destruct (Z_le_gt_dec e he) as [|Hgt]; [assumption|exfalso].
      assert (Hm52 : Z.pos m < 2 ^ 52).
      { replace (e + 1074) with ((e - he) + (he + 1074)) in Ht by lia.
        rewrite (Z.pow_add_r 2 (e - he) (he + 1074)), Z.mul_assoc in Ht by lia.
        apply Z.mul_le_mono_pos_r in Ht; [|apply Z.pow_pos_nonneg; lia].
        assert (2 ^ 1 <= 2 ^ (e - he)) by (apply Z.pow_le_mono_r; lia).
        change (2 ^ 1) with 2 in *. change (2 ^ 53) with (2 * 2 ^ 52) in *.
        nia. }
      assert (Z.pos (digits2_pos m) <= 52)
        by (apply digits2_pos_le; [lia|exact Hm52]).
      lia. }
    assert (Hm : e = he -> Z.pos m <= Z.pos hm).
    { intros ->. apply Z.mul_le_mono_pos_r in Ht;
        [exact Ht|apply Z.pow_pos_nonneg; lia]. }
    unfold SFleb, SFcompare. destruct s.
    + split; [|reflexivity].
      destruct (he ?= e) eqn:Ec.
      * apply Z.compare_eq in Ec. symmetry in Ec. specialize (Hm Ec).
        rewrite Pos.compare_cont_spec. unfold Pos.switch_Eq.
        rewrite Pos2Z.inj_compare.
        destruct (Z.pos hm ?= Z.pos m) eqn:Em; try reflexivity.
        change (Z.pos hm < Z.pos m) in Em. lia.
      * change (he < e) in Ec. lia.
      * reflexivity.
    + split; [reflexivity|].
      destruct (e ?= he) eqn:Ec.
      * apply Z.compare_eq in Ec. specialize (Hm Ec).
        rewrite Pos.compare_cont_spec. unfold Pos.switch_Eq.
        rewrite Pos2Z.inj_compare.
        destruct (Z.pos m ?= Z.pos hm) eqn:Em; try reflexivity.
        apply Z.compare_gt_iff in Em. change (Z.pos hm < Z.pos m) in Em. lia.
      * reflexivity.
      * apply Z.compare_gt_iff in Ec. change (he < e) in Ec. lia.
Qed.

(** The offset [(Math.random() - 0.5) * 0.02] lies between -0.01 and
    0.01. *)
Lemma random_offset_bounds rnd :
  (0 <=? rnd)%float = true -> (rnd <? 1)%float = true ->
  (-0.01 <=? (rnd - 0.5) * 0.02)%float = true
  /\ ((rnd - 0.5) * 0.02 <=? 0.01)%float = true.
Proof.
  intros H0 H1.
  pose proof (Prim2SF_valid ((rnd - 0.5) * 0.02)%float) as Hv.
  pose proof (Prim2SF_valid rnd) as Hvr.
  rewrite !leb_spec, Prim2SF_neg_001, Prim2SF_001.
  assert (Hx : match Prim2SF ((rnd - 0.5) * 0.02)%float with
               | S754_zero _ => True
               | S754_finite _ m e =>
                   -1074 <= e /\ ticks m e <= ticks 5764607523034235 (-59)
               | _ => False
               end).
  { rewrite mul_spec, sub_spec, Prim2SF_half, Prim2SF_002.
    destruct (unit_interval_spec rnd H0 H1) as [[s Hr]|(m & e & Hr & He & Hm)];
      rewrite Hr in *.
    - change (SF64sub (S754_zero s) SFhalf)
        with (S754_finite true 4503599627370496 (-53)).
      apply (mul_002_bounds true 4503599627370496 (-53)); [lia|apply Z.le_refl].
    - apply valid_binary_finite in Hvr as [_ Hem].
      pose proof (sub_half_bounds m e ltac:(lia) Hm) as Hs.
      unfold SF64sub.
      destruct (SFsub prec emax (S754_finite false m e) SFhalf)
        as [s'|s'| |s' m' e']; try contradiction.
      + exact I.
      + destruct Hs as [Hs1 Hs2]. apply mul_002_bounds; assumption. }
  apply (SFleb_magnitude _ 5764607523034235 (-59) Hv);
    [vm_compute; split; [discriminate|reflexivity]|lia|exact Hx].
Qed.

(** X15: Start Mission puts the patient at the ambulance's position plus
    the offset [(r - 0.5) * 0.02] per axis, [r] being the result of
    [Math.random()] drawn for that axis, and for results in [0, 1) each
    offset lies between -0.01 and 0.01 degrees; the position of the
    ambulance itself is not moved. *)
Theorem start_mission_target_is_near w rnd1 rnd2 st :
  (0 <=? rnd1)%float = true -> (rnd1 <? 1)%float = true ->
  (0 <=? rnd2)%float = true -> (rnd2 <? 1)%float = true ->
  let w' := handle w (StartMission rnd1 rnd2 st) in
  let dlat := ((rnd1 - 0.5) * 0.02)%float in
  let dlng := ((rnd2 - 0.5) * 0.02)%float in
  targetPos (app w') =
    Some {| lat := (lat (ambulancePos (app w)) + dlat)%float;
            lng := (lng (ambulancePos (app w)) + dlng)%float |}
  /\ ambulancePos (app w') = ambulancePos (app w)
  /\ (-0.01 <=? dlat)%float = true /\ (dlat <=? 0.01)%float = true
  /\ (-0.01 <=? dlng)%float = true /\ (dlng <=? 0.01)%float = true.
Proof.
  intros H1 H2 H3 H4 w' dlat dlng.
  destruct (random_offset_bounds rnd1 H1 H2) as [A1 A2].
  destruct (random_offset_bounds rnd2 H3 H4) as [B1 B2].
  subst w' dlat dlng. unfold_handlers. run_effects. cbv zeta. run_effects.
  split; [reflexivity|]. split; [reflexivity|].
  split; [exact A1|]. split; [exact A2|]. split; [exact B1|exact B2].
Qed.

(** ** The further properties on the sample mission *)

Lemma logs_are_append_only_witness :
  exists l,
    logs (app completedWorld) = (logs (app initialWorld) ++ l)%list
    /\ (List.length l <= 2 * 6)%nat.
Proof.
  exact (logs_are_append_only
           [Login stamp0; StartMission 0.25%float 0.75%float stamp0;
            AnalysisResolved "Critical cardiac case: priority corridor advised."
              stamp0 stamp0;
            Arrival 1 stamp0; TransportToHospital stamp0 stamp0;
            Arrival 3 stamp0]
           initialWorld completedWorld completedWorld_run).
Defined.

Lemma speed_stays_in_range_witness :
  speed_in_range
    (speed (app (next (next enroutePatientWorld
                         (PositionUpdate 1 patientPos nearOne))
                   (PositionUpdate 0 patientPos 0.5%float)))).
Proof.
  apply (speed_stays_in_range
           [PositionUpdate 1 patientPos nearOne;
            PositionUpdate 0 patientPos 0.5%float] enroutePatientWorld).
  - left. vm_compute. reflexivity.
  - vm_compute. reflexivity.
  - vm_compute. reflexivity.
Defined.

Lemma arrivals_alerts_and_timers_balance_witness :
  count isHospitalArrivalLog (logs (app completedWorld))
  = (List.length (alerts completedWorld)
     + List.length (timers completedWorld))%nat
  /\ Forall (fun a => a = "Mission Successfully Completed.")
       (alerts completedWorld)
  /\ (count isCorridorLog (logs (app completedWorld))
      + List.length (analysisCalls completedWorld)
      <= count isStartLog (logs (app completedWorld)))%nat.
Proof.
  exact (arrivals_alerts_and_timers_balance completedWorld
           completedWorld_reachable).
Defined.

Lemma configuration_is_fixed_but_for_the_type_witness :
  EmergencyDetails.severity (emergency (app completedWorld)) = Critical
  /\ EmergencyDetails.patientName (emergency (app completedWorld)) = "John Doe"
  /\ EmergencyDetails.description (emergency (app completedWorld))
     = "Male, 55, chest pains, collapsed."
  /\ Forall (fun c => call_severity c = Critical
                      /\ call_traffic c = "Heavy Congestion")
       (analysisCalls completedWorld).
Proof.
  exact (configuration_is_fixed_but_for_the_type completedWorld
           completedWorld_reachable).
Defined.

Lemma reset_timer_is_unconditional_witness :
  timers completedWorld = [hospitalTimeout]
  /\ status (app (handle completedWorld TimeoutFired)) = IDLE
  /\ view (app (handle completedWorld TimeoutFired)) = DASHBOARD
  /\ targetPos (app (handle completedWorld TimeoutFired)) = None
  /\ ambulancePos (app (handle completedWorld TimeoutFired)) = HOSPITAL_LOC
  /\ alerts (handle completedWorld TimeoutFired)
     = (alerts completedWorld ++ ["Mission Successfully Completed."])%list.
Proof.
  assert (Ht : timers completedWorld = [hospitalTimeout])
    by (vm_compute; reflexivity).
  destruct (reset_timer_is_unconditional completedWorld hospitalTimeout [] Ht)
    as (H1 & H2 & H3 & _ & _ & H6 & _ & H8 & _).
  exact (conj Ht (conj H1 (conj H2 (conj H3 (conj H6 H8))))).
Defined.

Lemma begin_transport_always_has_a_target_witness :
  enabled atPatientWorld (TransportToHospital stamp0 stamp0) = true
  /\ exists p,
       targetPos (app atPatientWorld) = Some p
       /\ ambulancePos (app (handle atPatientWorld
                               (TransportToHospital stamp0 stamp0))) = p.
Proof.
  assert (Hen : enabled atPatientWorld (TransportToHospital stamp0 stamp0)
                = true) by (vm_compute; reflexivity).
  split; [exact Hen|].
  exact (begin_transport_always_has_a_target atPatientWorld stamp0 stamp0
           atPatientWorld_reachable Hen).
Defined.

Lemma at_patient_offers_transport_witness :
  status (app atPatientWorld) = AT_PATIENT
  /\ showTransModal (app atPatientWorld) = true.
Proof.
  assert (Hs : status (app atPatientWorld) = AT_PATIENT)
    by (vm_compute; reflexivity).
  split; [exact Hs|].
  exact (at_patient_offers_transport atPatientWorld atPatientWorld_reachable Hs).
Defined.

Lemma manual_location_accepts_digit_prefixed_witness :
  let w := handle (handle dashboardWorld (ChangeManualLat "12.5 north"))
             (ChangeManualLng "77e0abc") in
  isNaN (parseFloat "12.5 north") = false
  /\ isNaN (parseFloat "77e0abc") = false
  /\ ambulancePos (app (handle w (ManualLocation stamp0)))
     = {| lat := parseFloat "12.5 north"; lng := parseFloat "77e0abc" |}.
Proof.
  cbv zeta.
  destruct (manual_location_accepts_digit_prefixed
              (handle (handle dashboardWorld (ChangeManualLat "12.5 north"))
                 (ChangeManualLng "77e0abc"))
              stamp0 "1"%char 1 "2.5 north" "7"%char 7 "7e0abc")
    as (H1 & H2 & H3 & _); [vm_compute; reflexivity ..|].
  exact (conj H1 (conj H2 H3)).
Defined.

Lemma manual_location_accepts_infinity_witness :
  let w := handle (handle dashboardWorld (ChangeManualLat "Infinity"))
             (ChangeManualLng "-Infinity km") in
  ambulancePos (app (handle w (ManualLocation stamp0)))
  = {| lat := infinity; lng := neg_infinity |}.
Proof.
  cbv zeta.
  apply (manual_location_accepts_infinity
           (handle (handle dashboardWorld (ChangeManualLat "Infinity"))
              (ChangeManualLng "-Infinity km"))
           stamp0 "" " km");
    vm_compute; reflexivity.
Defined.

Lemma fix_then_manual_location_is_accepted_witness :
  let w1 := handle dashboardWorld
              (GeolocationSuccess 12.9716%float 77.5946%float stamp0) in
  let w2 := handle w1 (ManualLocation stamp0) in
  manualLat (app w1) = Number_toString 12.9716%float
  /\ isNaN (parseFloat (Number_toString 12.9716%float)) = false
  /\ isNaN (parseFloat (Number_toString 77.5946%float)) = false
  /\ ambulancePos (app w2)
     = {| lat := parseFloat (Number_toString 12.9716%float);
          lng := parseFloat (Number_toString 77.5946%float) |}.
Proof.
  cbv zeta.
  destruct (fix_then_manual_location_is_accepted dashboardWorld
              12.9716%float 77.5946%float stamp0 stamp0)
    as (H1 & _ & H3 & H4 & H5 & _); [vm_compute; reflexivity ..|].
  exact (conj H1 (conj H3 (conj H4 H5))).
Defined.

Lemma start_mission_target_is_near_witness :
  let w' := handle dashboardWorld
              (StartMission 0.25%float 0.75%float stamp0) in
  let dlat := ((0.25 - 0.5) * 0.02)%float in
  let dlng := ((0.75 - 0.5) * 0.02)%float in
  targetPos (app w') =
    Some {| lat := (lat (ambulancePos (app dashboardWorld)) + dlat)%float;
            lng := (lng (ambulancePos (app dashboardWorld)) + dlng)%float |}
  /\ ambulancePos (app w') = ambulancePos (app dashboardWorld)
  /\ (-0.01 <=? dlat)%float = true /\ (dlat <=? 0.01)%float = true
  /\ (-0.01 <=? dlng)%float = true /\ (dlng <=? 0.01)%float = true.
Proof.
  assert (H1 : (0 <=? 0.25)%float = true) by (vm_compute; reflexivity).
  assert (H2 : (0.25 <? 1)%float = true) by (vm_compute; reflexivity).
  assert (H3 : (0 <=? 0.75)%float = true) by (vm_compute; reflexivity).
  assert (H4 : (0.75 <? 1)%float = true) by (vm_compute; reflexivity).
  exact (start_mission_target_is_near dashboardWorld 0.25%float 0.75%float
           stamp0 H1 H2 H3 H4).
Defined.
